(** * ZongJi session orchestrator (index.js): a shallow embedding

    The JavaScript object [ZongJi] is embedded as a record of its fields
    together with the bookkeeping that the JavaScript runtime keeps for it
    (promises created by [start], callbacks handed to the SQL client).
    Every method is a function from a state to a new state and the list of
    externally visible actions it performs: notifications emitted on the
    event emitter and calls made on the two connections and on the binlog
    stream.  The SQL client and the binlog decoder are collaborators: what
    they answer arrives as an input of the step function, in any order and
    with any result.

    Conventions of the embedding:
    - a callback and the promise reactions it triggers run to completion
      before the next callback (one input of [step]);
    - the consumer listens to ['error'] (an unheard ['error'] would make
      [emit] throw);
    - [includeSchema] and [excludeSchema], when present, are plain objects:
      their own properties are enumerable data properties and their
      prototype is [Object.prototype]; a rule that is a function is a pure
      predicate that returns a boolean;
    - a promise rejection without handler is recorded as an action; what
      the runtime does with it is not part of the session. *)

From Stdlib Require Import ZArith NArith String Ascii List Bool Lia.
From stdpp Require Import base option list strings gmap pretty.

Local Open Scope string_scope.

(** ** JavaScript values that cross the interface *)

Inductive value :=
  | VUndefined
  | VNull
  | VBool (b : bool)
  | VNum (n : Z)
  | VStr (s : string).

(** ToBoolean on the values above. *)
Definition truthy (v : value) : bool :=
  match v with
  | VUndefined | VNull => false
  | VBool b => b
  | VNum n => negb (n =? 0)%Z
  | VStr s => match s with EmptyString => false | _ => true end
  end.

(** A result row of the SQL client: an object from column names to values.
    Reading a column that is not there gives [undefined]. *)
Definition row := gmap string value.

Definition field (k : string) (r : row) : value := default VUndefined (r !! k).

(** Error objects: [name] and [message], with [Error.prototype.toString]. *)
Record JsError := MkError { err_name : string; err_message : string }.

Definition err_toString (e : JsError) : string :=
  match err_name e, err_message e with
  | EmptyString, m => m
  | n, EmptyString => n
  | n, m => n ++ ": " ++ m
  end.

(** ** String helpers *)

(** [str_prefix p s]: [s] starts with [p]. *)
Fixpoint str_prefix (p s : string) : bool :=
  match p, s with
  | EmptyString, _ => true
  | String a p', String b s' => if Ascii.eqb a b then str_prefix p' s' else false
  | String _ _, EmptyString => false
  end.

(** [str_contains p s]: the literal [p] occurs in [s]; this is what
    [s.match(/p/)] tests when [p] has no regular-expression operators. *)
Fixpoint str_contains (p s : string) : bool :=
  if str_prefix p s then true
  else match s with
       | EmptyString => false
       | String _ s' => str_contains p s'
       end.

(** [util.format] restricted to the directives [%s] and [%%].  Arguments are
    strings; each [%s] consumes one argument, a [%s] with no argument left
    stays as it is, and arguments left over are appended after a space. *)
Fixpoint format_go (t : string) (args : list string) : string :=
  match t with
  | String "%" (String "s" t') =>
      match args with
      | a :: args' => a ++ format_go t' args'
      | [] => String "%" (String "s" (format_go t' []))
      end
  | String "%" (String "%" t') => String "%" (format_go t' args)
  | String c t' => String c (format_go t' args)
  | EmptyString =>
      fold_left (fun acc a => acc ++ " " ++ a) args EmptyString
  end.

Definition format (t : string) (args : list string) : string := format_go t args.

(** ** Module constants *)

Definition nl : string := String (ascii_of_nat 10) EmptyString.

(** The template literal of lines 6-10, line feeds and trailing blanks
    included. *)
Definition TableInfoQueryTemplate : string :=
  "SELECT " ++ nl ++
  "  COLUMN_NAME, COLLATION_NAME, CHARACTER_SET_NAME, " ++ nl ++
  "  COLUMN_COMMENT, COLUMN_TYPE " ++ nl ++
  "  FROM INFORMATION_SCHEMA.COLUMNS WHERE TABLE_SCHEMA='%s' AND TABLE_NAME='%s' " ++ nl ++
  "  ORDER BY ORDINAL_POSITION".

Definition SelectChecksumParamSql : string :=
  "select @@GLOBAL.binlog_checksum as checksum".

Definition SetChecksumSql : string :=
  "set @master_binlog_checksum=@@global.binlog_checksum".

(** ** Configuration and filters *)

(** [this.options], as built by [_options]. *)
Record Options := MkOptions {
  serverId : value;
  filename : value;
  position : value;
  startAtEnd : value
}.

(** A rule of [includeSchema] / [excludeSchema].  The code inspects the
    rule at run time: [=== true], [Array.isArray], [typeof === 'function'].
    A function rule is a pure predicate on JavaScript values that returns a
    boolean; the code calls it with the table name.  [ROther] stands for a
    value that is none of the three (e.g. [false] or a string). *)
Inductive SchemaRule :=
  | RAll
  | RList (tables : list string)
  | RPred (p : value -> bool)
  | ROther.

(** The properties that every plain object inherits from
    [Object.prototype]: eleven functions and the accessor [__proto__]. *)
Inductive ProtoMember :=
  | PConstructor
  | PToString
  | PToLocaleString
  | PValueOf
  | PHasOwnProperty
  | PIsPrototypeOf
  | PPropertyIsEnumerable
  | PDefineGetter
  | PDefineSetter
  | PLookupGetter
  | PLookupSetter
  | PProto.

Definition proto_member (name : string) : option ProtoMember :=
  if String.eqb name "constructor" then Some PConstructor
  else if String.eqb name "toString" then Some PToString
  else if String.eqb name "toLocaleString" then Some PToLocaleString
  else if String.eqb name "valueOf" then Some PValueOf
  else if String.eqb name "hasOwnProperty" then Some PHasOwnProperty
  else if String.eqb name "isPrototypeOf" then Some PIsPrototypeOf
  else if String.eqb name "propertyIsEnumerable" then Some PPropertyIsEnumerable
  else if String.eqb name "__defineGetter__" then Some PDefineGetter
  else if String.eqb name "__defineSetter__" then Some PDefineSetter
  else if String.eqb name "__lookupGetter__" then Some PLookupGetter
  else if String.eqb name "__lookupSetter__" then Some PLookupSetter
  else if String.eqb name "__proto__" then Some PProto
  else None.

(** [this.filters], as built by [_filters].  [None] is a falsy field
    ([undefined]).  A map is a plain object: the [gmap] holds its own
    properties (enumerable data properties), and its prototype is
    [Object.prototype]. *)
Record Filters := MkFilters {
  includeEvents : option (list string);
  excludeEvents : option (list string);
  includeSchema : option (gmap string SchemaRule);
  excludeSchema : option (gmap string SchemaRule)
}.

(** The argument of [start]: one object, from which [_options] and
    [_filters] each destructure their four fields. *)
Record StartArg := MkStartArg {
  arg_options : Options;
  arg_filters : Filters
}.

Definition no_options : Options := MkOptions VUndefined VUndefined VUndefined VUndefined.
Definition no_filters : Filters := MkFilters None None None None.
Definition empty_arg : StartArg := MkStartArg no_options no_filters.

(** [Array.prototype.includes] on an array of strings. *)
Definition includes (l : list string) (x : string) : bool :=
  existsb (String.eqb x) l.

(** ** Filter policy (lines 207-229) *)

Definition _skipEvent (f : Filters) (name : string) : bool :=
  let included :=
    match includeEvents f with
    | None => true
    | Some l => includes l name
    end in
  let excluded :=
    match excludeEvents f with
    | None => false
    | Some l => includes l name
    end in
  excluded || negb included.

(** The three-way test of lines 220-222 and 225-227 applied to a rule that
    the map holds itself. *)
Definition rule_matches (r : SchemaRule) (table : string) : bool :=
  match r with
  | RAll => true
  | RList l => includes l table
  | RPred p => p (VStr table)
  | ROther => false
  end.

(** What an expression of [_skipSchema] evaluates to: a primitive value, an
    object or function (always truthy), or a [TypeError] thrown on the
    way. *)
Inductive Outcome :=
  | OVal (v : value)
  | OObject
  | OThrow.

Definition truthy_outcome (o : Outcome) : bool :=
  match o with
  | OVal v => truthy v
  | OObject => true
  | OThrow => false
  end.

(** [rules[db](table)] where [rules[db]] is inherited from
    [Object.prototype]; the call has [rules] as its [this]:
    - [constructor]: [Object(table)], a [String] object;
    - [toString]: ["[object Object]"];
    - [toLocaleString]: calls [this.toString()], which is the rule of the
      schema [toString] when the map has one: a predicate is called without
      argument, any other rule is not callable;
    - [valueOf]: the map itself;
    - [hasOwnProperty], [propertyIsEnumerable]: whether the map has a rule
      for the schema called [table];
    - [isPrototypeOf]: [false], the argument being a string;
    - [__defineGetter__], [__defineSetter__]: throw, the second argument
      being no function;
    - [__lookupGetter__], [__lookupSetter__]: [undefined] for a data
      property; the accessor of [Object.prototype.__proto__] when [table] is
      [__proto__] and the map does not hold that key itself;
    - [__proto__] is no function but the object [Object.prototype]: none of
      the three tests holds. *)
Definition inherited_test (m : ProtoMember) (rules : gmap string SchemaRule)
    (table : string) : Outcome :=
  match m with
  | PConstructor => OObject
  | PToString => OVal (VStr "[object Object]")
  | PToLocaleString =>
      match rules !! "toString" with
      | None => OVal (VStr "[object Object]")
      | Some (RPred p) => OVal (VBool (p VUndefined))
      | Some _ => OThrow
      end
  | PValueOf => OObject
  | PHasOwnProperty | PPropertyIsEnumerable =>
      OVal (VBool (bool_decide (is_Some (rules !! table))))
  | PIsPrototypeOf => OVal (VBool false)
  | PDefineGetter | PDefineSetter => OThrow
  | PLookupGetter | PLookupSetter =>
      match rules !! table with
      | Some _ => OVal VUndefined
      | None => if String.eqb table "__proto__" then OObject else OVal VUndefined
      end
  | PProto => OVal (VBool false)
  end.

(** [db in rules && (rules[db] === true || ...)], lines 219-222 and
    224-227.  The operator [in] finds the properties the map holds itself
    and those it inherits. *)
Definition rule_test (rules : gmap string SchemaRule) (db table : string) : Outcome :=
  match rules !! db with
  | Some r => OVal (VBool (rule_matches r table))
  | None =>
      match proto_member db with
      | Some m => inherited_test m rules table
      | None => OVal (VBool false)
      end
  end.

(** lines 214-229: [included] is computed first, then [excluded]; the
    function returns [excluded] when that is truthy and [!included]
    otherwise. *)
Definition _skipSchema (f : Filters) (db table : string) : Outcome :=
  let excludes := default ∅ (excludeSchema f) in
  let included :=
    match includeSchema f with
    | None => OVal (VBool true)
    | Some inc => rule_test inc db table
    end in
  match included with
  | OThrow => OThrow
  | _ =>
      match rule_test excludes db table with
      | OThrow => OThrow
      | excluded =>
          if truthy_outcome excluded then excluded
          else OVal (VBool (negb (truthy_outcome included)))
      end
  end.

(** ** Collaborators and what is exchanged with them *)

(** [this.ctrlConnection] and [this.connection].  Both are made by
    [mysql.createConnection] (lines 30-45), whose connection objects carry the
    methods [query], [destroy], [pause] and [resume]; the feature tests of
    lines 194, 195, 197, 203 and 204 on these methods therefore succeed. *)
Inductive conn := Ctrl | Stream.

(** The fields of a table-map event that [_fetchTableInfo] reads. *)
Record TableMapEvent := MkTableMapEvent {
  ev_tableId : N;
  ev_schemaName : string;
  ev_tableName : string
}.

(** A value of [this.tableMap] (lines 113-117). *)
Record TableInfo := MkTableInfo {
  columnSchemas : list row;
  parentSchema : string;
  tableName : string
}.

(** What the SQL client passes to a query callback: [(err, rows)]. *)
Inductive QueryResult :=
  | QErr (e : JsError)
  | QRows (rows : list row).

(** A decoded event handed over by the binlog stream; opaque here. *)
Record DecodedEvent := MkDecodedEvent { evt_name : string }.

(** Notifications on the event emitter. *)
Inductive notification :=
  | NReady
  | NStopped
  | NError (e : JsError)
  | NBinlog (evt : option DecodedEvent) (err : option JsError).

(** Externally visible actions of a method or callback, in program order. *)
Inductive action :=
  | Emit (n : notification)
  | Query (c : conn) (sql : string)
  | Destroy (c : conn)
  | PauseConn
  | ResumeConn
  | InitBinlogClass
  | NewBinlogStream
  | BinlogStart
  | CallNext (ev : TableMapEvent)
  | UnhandledRejection (e : JsError).

(** ** Bookkeeping of the JavaScript runtime *)

Inductive pstate :=
  | Pending
  | Resolved
  | Rejected (e : JsError).

Definition is_resolved (p : pstate) : bool :=
  match p with Resolved => true | _ => false end.

(** One call of [start]: its closure and its promises.
    - [run_arg]: the parameter [options] captured by [findBinlogEnd];
    - [checksumEnabled]: the local of [_isChecksumEnabled] (line 62);
    - [pChecksum]: [new Promise(testChecksum)];
    - [pBinlogEnd]: [new Promise(findBinlogEnd)], absent when
      [options.startAtEnd] is falsy;
    - [pAll]: the promise made by [Promise.all] (line 174). *)
Record Run := MkRun {
  run_arg : StartArg;
  checksumEnabled : bool;
  pChecksum : pstate;
  pBinlogEnd : option pstate;
  pAll : pstate
}.

(** Callbacks held by the SQL client until it answers the query. *)
Inductive cont :=
  | KSelectChecksum (rid : nat)   (* line 64, control connection *)
  | KAfterThen (rid : nat)        (* lines 68 and 72, stream connection *)
  | KAfterCatch (rid : nat)       (* line 78, stream connection *)
  | KShowBinaryLogs (rid : nat)   (* line 90, control connection *)
  | KTableInfo (ev : TableMapEvent) (* line 100, control connection *)
  | KKill.                        (* line 196, control connection *)

(** ** The session object *)

Record State := MkState {
  options : Options;
  filters : Filters;
  tableMap : gmap N TableInfo;
  ready : bool;
  stopped : bool;
  useChecksum : bool;
  ctrlConnectionOwner : bool;
  BinlogClass : bool;          (* [this.BinlogClass] has been assigned *)
  binlogStream : bool;         (* [this.binlogStream] has been assigned *)
  binlogHasStart : bool;       (* [typeof binlogStream.start === 'function'] *)
  threadId : option N;         (* [this.connection.threadId], [null] until the handshake *)
  runs : list Run;
  pending : list cont
}.

Definition set_options (v : Options) (s : State) : State :=
  MkState v (filters s) (tableMap s) (ready s) (stopped s) (useChecksum s)
    (ctrlConnectionOwner s) (BinlogClass s) (binlogStream s) (binlogHasStart s)
    (threadId s) (runs s) (pending s).
Definition set_filters (v : Filters) (s : State) : State :=
  MkState (options s) v (tableMap s) (ready s) (stopped s) (useChecksum s)
    (ctrlConnectionOwner s) (BinlogClass s) (binlogStream s) (binlogHasStart s)
    (threadId s) (runs s) (pending s).
Definition set_tableMap (v : gmap N TableInfo) (s : State) : State :=
  MkState (options s) (filters s) v (ready s) (stopped s) (useChecksum s)
    (ctrlConnectionOwner s) (BinlogClass s) (binlogStream s) (binlogHasStart s)
    (threadId s) (runs s) (pending s).
Definition set_ready (v : bool) (s : State) : State :=
  MkState (options s) (filters s) (tableMap s) v (stopped s) (useChecksum s)
    (ctrlConnectionOwner s) (BinlogClass s) (binlogStream s) (binlogHasStart s)
    (threadId s) (runs s) (pending s).
Definition set_stopped (v : bool) (s : State) : State :=
  MkState (options s) (filters s) (tableMap s) (ready s) v (useChecksum s)
    (ctrlConnectionOwner s) (BinlogClass s) (binlogStream s) (binlogHasStart s)
    (threadId s) (runs s) (pending s).
Definition set_useChecksum (v : bool) (s : State) : State :=
  MkState (options s) (filters s) (tableMap s) (ready s) (stopped s) v
    (ctrlConnectionOwner s) (BinlogClass s) (binlogStream s) (binlogHasStart s)
    (threadId s) (runs s) (pending s).
Definition set_BinlogClass (v : bool) (s : State) : State :=
  MkState (options s) (filters s) (tableMap s) (ready s) (stopped s) (useChecksum s)
    (ctrlConnectionOwner s) v (binlogStream s) (binlogHasStart s)
    (threadId s) (runs s) (pending s).
Definition set_binlogStream (v : bool) (s : State) : State :=
  MkState (options s) (filters s) (tableMap s) (ready s) (stopped s) (useChecksum s)
    (ctrlConnectionOwner s) (BinlogClass s) v (binlogHasStart s)
    (threadId s) (runs s) (pending s).
Definition set_threadId (v : option N) (s : State) : State :=
  MkState (options s) (filters s) (tableMap s) (ready s) (stopped s) (useChecksum s)
    (ctrlConnectionOwner s) (BinlogClass s) (binlogStream s) (binlogHasStart s)
    v (runs s) (pending s).
Definition set_runs (v : list Run) (s : State) : State :=
  MkState (options s) (filters s) (tableMap s) (ready s) (stopped s) (useChecksum s)
    (ctrlConnectionOwner s) (BinlogClass s) (binlogStream s) (binlogHasStart s)
    (threadId s) v (pending s).
Definition set_pending (v : list cont) (s : State) : State :=
  MkState (options s) (filters s) (tableMap s) (ready s) (stopped s) (useChecksum s)
    (ctrlConnectionOwner s) (BinlogClass s) (binlogStream s) (binlogHasStart s)
    (threadId s) (runs s) v.

Definition set_checksumEnabled (v : bool) (r : Run) : Run :=
  MkRun (run_arg r) v (pChecksum r) (pBinlogEnd r) (pAll r).
Definition set_pChecksum (v : pstate) (r : Run) : Run :=
  MkRun (run_arg r) (checksumEnabled r) v (pBinlogEnd r) (pAll r).
Definition set_pBinlogEnd (v : option pstate) (r : Run) : Run :=
  MkRun (run_arg r) (checksumEnabled r) (pChecksum r) v (pAll r).
Definition set_pAll (v : pstate) (r : Run) : Run :=
  MkRun (run_arg r) (checksumEnabled r) (pChecksum r) (pBinlogEnd r) v.

(** ** Sequencing of effects

    A piece of code is a function from the session to the session after it
    and the actions it performed. *)
Definition act := State -> State * list action.

Definition skip : act := fun st => (st, []).

Definition andThen (a b : act) : act := fun st =>
  let '(st1, o1) := a st in
  let '(st2, o2) := b st1 in
  (st2, (o1 ++ o2)%list).

Infix ">>>" := andThen (at level 65, right associativity).

Definition perform (x : action) : act := fun st => (st, [x]).
Definition emit (n : notification) : act := perform (Emit n).
Definition modify (f : State -> State) : act := fun st => (f st, []).
Definition read {A} (f : State -> A) (k : A -> act) : act := fun st => k (f st) st.

(** [conn.query(sql, callback)]: the statement goes out and the callback
    waits for the answer. *)
Definition query (c : conn) (sql : string) (k : cont) : act :=
  perform (Query c sql) >>> modify (fun st => set_pending (pending st ++ [k])%list st).

Definition upd_run (rid : nat) (f : Run -> Run) : act :=
  modify (fun st => set_runs (alter f rid (runs st)) st).

Definition with_run (rid : nat) (k : Run -> act) : act := fun st =>
  match runs st !! rid with
  | Some r => k r st
  | None => (st, [])
  end.

(** ** Promises of [start] (line 174)

    [Promise.all] over the promises that were created: it is fulfilled once
    all of them are, and rejected with the first rejection.  Its reaction
    (line 175 or line 187) runs after the code that settled it has run to
    completion, before any other callback of the SQL client. *)

Inductive which := PChecksum | PBinlogEnd.

Definition get_p (w : which) (r : Run) : option pstate :=
  match w with
  | PChecksum => Some (pChecksum r)
  | PBinlogEnd => pBinlogEnd r
  end.

Definition set_p (w : which) (p : pstate) (r : Run) : Run :=
  match w with
  | PChecksum => set_pChecksum p r
  | PBinlogEnd => set_pBinlogEnd (Some p) r
  end.

Definition all_resolved (r : Run) : bool :=
  is_resolved (pChecksum r) &&
  match pBinlogEnd r with
  | Some p => is_resolved p
  | None => true
  end.

(** Settling one of the promises, and what [Promise.all] makes of it.
    Settling a promise that is settled already does nothing. *)
Definition resolve_in (w : which) (r : Run) : Run :=
  match get_p w r with
  | Some Pending =>
      let r' := set_p w Resolved r in
      match pAll r' with
      | Pending => if all_resolved r' then set_pAll Resolved r' else r'
      | _ => r'
      end
  | _ => r
  end.

Definition reject_in (w : which) (e : JsError) (r : Run) : Run :=
  match get_p w r with
  | Some Pending =>
      let r' := set_p w (Rejected e) r in
      match pAll r' with
      | Pending => set_pAll (Rejected e) r'
      | _ => r'
      end
  | _ => r
  end.

Definition resolve (w : which) (rid : nat) : act := upd_run rid (resolve_in w).
Definition reject (w : which) (rid : nat) (e : JsError) : act := upd_run rid (reject_in w e).

(** The fulfilment reaction, lines 175-186. *)
Definition all_then : act :=
  perform InitBinlogClass >>> modify (set_BinlogClass true) >>>
  read stopped (fun s =>
    if s then skip
    else
      perform NewBinlogStream >>> modify (set_binlogStream true) >>>
      read binlogHasStart (fun h => if h then perform BinlogStart else skip) >>>
      modify (set_ready true) >>> emit NReady).

(** The rejection reaction, line 187. *)
Definition all_catch (err : JsError) : act := emit (NError err).

Definition react (rid : nat) : act :=
  with_run rid (fun r =>
    match pAll r with
    | Pending => skip
    | Resolved => all_then
    | Rejected e => all_catch e
    end).

(** [body] runs; if it settles the [Promise.all] of run [rid], the reaction
    follows. *)
Definition reacting (rid : nat) (body : act) : act := fun st =>
  match pAll <$> runs st !! rid with
  | Some Pending => (body >>> react rid) st
  | _ => body st
  end.

(** ** Methods *)

Definition _options (o : Options) : act := modify (set_options o).
Definition _filters (f : Filters) : act := modify (set_filters f).

(** What is passed to the completion callback of [_isChecksumEnabled]:
    [next(err)] or [next(null, checksumEnabled)]. *)
Inductive NextCall :=
  | NextErr (err : JsError)
  | NextOk (checksumEnabled : bool).

(** [rows[0].checksum] with [rows[0]] undefined. *)
Definition checksum_TypeError : JsError :=
  MkError "TypeError" "Cannot read properties of undefined (reading 'checksum')".

Definition is_NONE (v : value) : bool :=
  match v with
  | VStr s => String.eqb s "NONE"
  | _ => false
  end.

Section IsChecksumEnabled.
(** The promise chain of lines 64-85 for the call made by run [rid], with
    completion callback [next]. *)
Variable rid : nat.
Variable next : NextCall -> act.

(** lines 83-85 *)
Definition final_then : act :=
  with_run rid (fun r => next (NextOk (checksumEnabled r))).

(** lines 75-82; after [next(err)] the handler returns normally, so the
    [then] of line 83 follows. *)
Definition catch_handler (err : JsError) : act :=
  if str_contains "ER_UNKNOWN_SYSTEM_VARIABLE" (err_toString err) then
    upd_run rid (set_checksumEnabled false) >>>
    query Stream "SELECT 1" (KAfterCatch rid)
  else
    next (NextErr err) >>> final_then.

(** lines 65-74 *)
Definition then_handler (rows : list row) : act :=
  match rows with
  | [] => catch_handler checksum_TypeError
  | r0 :: _ =>
      if is_NONE (field "checksum" r0) then
        upd_run rid (set_checksumEnabled false) >>>
        query Stream "SELECT 1" (KAfterThen rid)
      else
        with_run rid (fun r =>
          if checksumEnabled r then query Stream SetChecksumSql (KAfterThen rid)
          else final_then)
  end.

(** The control connection answers the query of line 64. *)
Definition on_select_checksum (res : QueryResult) : act :=
  match res with
  | QErr e => catch_handler e
  | QRows rows => then_handler rows
  end.

(** The stream connection answers the query of line 68 or 72. *)
Definition on_after_then (res : QueryResult) : act :=
  match res with
  | QErr e => catch_handler e
  | QRows _ => final_then
  end.

(** The stream connection answers the query of line 78.  A failure
    rejects the promise of [catch] and with it the promise of the [then] of
    line 83, which has no rejection handler: [next] is never called and the
    rejection is handed to the runtime as an unhandled rejection. *)
Definition on_after_catch (res : QueryResult) : act :=
  match res with
  | QErr e => perform (UnhandledRejection e)
  | QRows _ => final_then
  end.

(** lines 49-64 *)
Definition _isChecksumEnabled : act :=
  upd_run rid (set_checksumEnabled true) >>>
  query Ctrl SelectChecksumParamSql (KSelectChecksum rid).
End IsChecksumEnabled.

(** lines 89-94, with completion callback [next(err, result)]. *)
Definition _findBinlogEnd (rid : nat) : act :=
  query Ctrl "SHOW BINARY LOGS" (KShowBinaryLogs rid).

Definition on_show_binary_logs (next : option JsError -> option row -> act)
    (res : QueryResult) : act :=
  match res with
  | QErr e => next (Some e) None
  | QRows rows => next None (last rows)
  end.

(** [util.format(TableInfoQueryTemplate, schemaName, tableName)], line 98. *)
Definition tableInfo_sql (ev : TableMapEvent) : string :=
  format TableInfoQueryTemplate [ev_schemaName ev; ev_tableName ev].

Definition permission_error (ev : TableMapEvent) : JsError :=
  MkError "Error"
    ("Insufficient permissions to access [" ++ ev_schemaName ev ++ "." ++
     ev_tableName ev ++ "], or the table has been dropped.").

(** lines 97-100 *)
Definition _fetchTableInfo (ev : TableMapEvent) : act :=
  query Ctrl (tableInfo_sql ev) (KTableInfo ev).

(** lines 100-120 *)
Definition on_table_info (ev : TableMapEvent) (res : QueryResult) : act :=
  match res with
  | QErr e => emit (NError e)
  | QRows [] => emit (NError (permission_error ev))
  | QRows rows =>
      modify (fun st =>
        set_tableMap
          (<[ev_tableId ev := MkTableInfo rows (ev_schemaName ev) (ev_tableName ev)]>
             (tableMap st)) st) >>>
      perform (CallNext ev)
  end.

(** ['KILL ' + this.connection.threadId] *)
Definition kill_sql (tid : option N) : string :=
  "KILL " ++ match tid with Some n => pretty n | None => "null" end.

(** lines 191-202 *)
Definition stop : act :=
  read stopped (fun s =>
    if s then skip
    else
      modify (set_stopped true) >>>
      perform (Destroy Stream) >>>
      read threadId (fun tid => query Ctrl (kill_sql tid) KKill)).

(** lines 196-199; the callback ignores what the query answered. *)
Definition on_kill : act :=
  read ctrlConnectionOwner (fun own => if own then perform (Destroy Ctrl) else skip) >>>
  emit NStopped.

(** lines 203-204 *)
Definition pause : act :=
  read stopped (fun s => if s then skip else perform PauseConn).
Definition resume : act :=
  read stopped (fun s => if s then skip else perform ResumeConn).

(** The callback of [testChecksum], lines 149-155. *)
Definition testChecksum_next (rid : nat) (c : NextCall) : act :=
  match c with
  | NextErr err => reject PChecksum rid err
  | NextOk checksumEnabled =>
      modify (set_useChecksum checksumEnabled) >>> resolve PChecksum rid
  end.

(** lines 147-156 *)
Definition testChecksum (rid : nat) : act :=
  read stopped (fun s =>
    if s then resolve PChecksum rid
    else _isChecksumEnabled rid).

(** [Object.assign({}, options, {filename: result.Log_name,
    position: result.File_size})] as [_options] reads it. *)
Definition assign_binlog_end (o : Options) (result : row) : Options :=
  MkOptions (serverId o) (field "Log_name" result) (field "File_size" result)
    (startAtEnd o).

(** The callback of [findBinlogEnd], lines 160-171. *)
Definition findBinlogEnd_next (rid : nat) (err : option JsError)
    (result : option row) : act :=
  match err with
  | Some e => reject PBinlogEnd rid e
  | None =>
      match result with
      | Some r =>
          with_run rid (fun run =>
            _options (assign_binlog_end (arg_options (run_arg run)) r))
      | None => skip
      end >>>
      resolve PBinlogEnd rid
  end.

(** lines 158-172 *)
Definition findBinlogEnd (rid : nat) : act :=
  read stopped (fun s =>
    if s then resolve PBinlogEnd rid
    else _findBinlogEnd rid).

(** lines 143-188.  The two executors run inside [start]; the reaction of
    [Promise.all] can only follow at once when both promises were
    resolved by the guards of lines 148 and 159. *)
Definition start (o : StartArg) : act :=
  _options (arg_options o) >>>
  _filters (arg_filters o) >>>
  read (fun st => length (runs st)) (fun rid =>
    let wantEnd := truthy (startAtEnd (arg_options o)) in
    (modify (fun st =>
       set_runs
         (runs st ++
          [MkRun o true Pending (if wantEnd then Some Pending else None) Pending])%list
         st) >>>
     testChecksum rid >>>
     (if wantEnd then findBinlogEnd rid else skip)) >>>
    react rid).

(** lines 12-24 *)
Definition ZongJi_new (hasStart : bool) : State :=
  MkState no_options no_filters ∅ false false false true false false hasStart
    None [] [].

(** ** The session as a reactive system *)

Inductive input :=
  | Start (o : StartArg)
  | Stop
  | PauseCall
  | ResumeCall
  | FetchTableInfo (ev : TableMapEvent)       (* the decoder met a table-map event *)
  | Reply (i : nat) (res : QueryResult)        (* the SQL client answers the [i]-th waiting callback *)
  | ConnectionError (c : conn) (e : JsError)   (* ['error'] / ['unhandledError'] of a connection, lines 38-39 *)
  | Connected (tid : N)                        (* handshake of the stream connection *)
  | BinlogCallback (err : option JsError) (evt : option DecodedEvent). (* line 179 *)

Definition run_cont (k : cont) (res : QueryResult) : act :=
  match k with
  | KSelectChecksum rid =>
      reacting rid (on_select_checksum rid (testChecksum_next rid) res)
  | KAfterThen rid =>
      reacting rid (on_after_then rid (testChecksum_next rid) res)
  | KAfterCatch rid =>
      reacting rid (on_after_catch rid (testChecksum_next rid) res)
  | KShowBinaryLogs rid =>
      reacting rid (on_show_binary_logs (findBinlogEnd_next rid) res)
  | KTableInfo ev => on_table_info ev res
  | KKill => on_kill
  end.

Definition reply (i : nat) (res : QueryResult) : act := fun st =>
  match pending st !! i with
  | Some k => (modify (set_pending (delete i (pending st))) >>> run_cont k res) st
  | None => (st, [])
  end.

Definition step (st : State) (i : input) : State * list action :=
  match i with
  | Start o => start o st
  | Stop => stop st
  | PauseCall => pause st
  | ResumeCall => resume st
  | FetchTableInfo ev => _fetchTableInfo ev st
  | Reply i res => reply i res st
  | ConnectionError _ e => emit (NError e) st
  | Connected tid => modify (set_threadId (Some tid)) st
  | BinlogCallback err evt =>
      if binlogStream st then emit (NBinlog evt err) st else (st, [])
  end.

(** Running a sequence of inputs; the actions are collected in order. *)
Fixpoint run (st : State) (ins : list input) : State * list action :=
  match ins with
  | [] => (st, [])
  | i :: ins' =>
      let '(st1, o1) := step st i in
      let '(st2, o2) := run st1 ins' in
      (st2, (o1 ++ o2)%list)
  end.

Definition notifications (out : list action) : list notification :=
  omap (fun a => match a with Emit n => Some n | _ => None end) out.

(** ** Reading the configuration (lines 132-140) *)

(** What a property of [this.options] reads as: a value of the session,
    or a member of [Object.prototype] (one of its functions, or
    [Object.prototype] itself for [__proto__]). *)
Inductive Member :=
  | MValue (v : value)
  | MProto (m : ProtoMember).

(** [this.options[name]]: [this.options] is the object literal of line
    125.  It holds the four fields itself and inherits the members of
    [Object.prototype]; any other name reads [undefined]. *)
Definition option_field (name : string) (o : Options) : Member :=
  if String.eqb name "serverId" then MValue (serverId o)
  else if String.eqb name "filename" then MValue (filename o)
  else if String.eqb name "position" then MValue (position o)
  else if String.eqb name "startAtEnd" then MValue (startAtEnd o)
  else
    match proto_member name with
    | Some m => MProto m
    | None => MValue VUndefined
    end.

(** The argument of [get]: a string, an array of strings, or anything
    else. *)
Inductive GetArg :=
  | GName (name : string)
  | GNames (names : list string)
  | GOther.

(** What [get] returns: what the property reads as, or the object built
    by [reduce], given by the properties it holds itself. *)
Inductive GetResult :=
  | GValue (v : Member)
  | GObject (o : gmap string Member).

(** [acc[cur] = this.options[cur]], line 136.  The assignment creates or
    overwrites a property of [acc], except under the name [__proto__]: there
    it calls the setter inherited from [Object.prototype] with
    [Object.prototype] itself, which leaves [acc] as it is. *)
Definition assign_name (o : Options) (acc : gmap string Member) (cur : string)
    : gmap string Member :=
  if String.eqb cur "__proto__" then acc else <[cur := option_field cur o]> acc.

(** The [reduce] of lines 135-138, from the empty object. *)
Definition get_names (names : list string) (o : Options) : gmap string Member :=
  fold_left (assign_name o) names ∅.

Definition get (name : GetArg) (st : State) : GetResult :=
  match name with
  | GName n => GValue (option_field n (options st))
  | GNames l => GObject (get_names l (options st))
  | GOther => GValue (MValue VUndefined)
  end.

(** * Vocabulary of the statements *)

Local Open Scope list_scope.

(** A rule stored under [db] in an optional map matches [table]. *)
Definition has_matching_rule (m : option (gmap string SchemaRule))
    (db table : string) : Prop :=
  exists rules r, m = Some rules /\ rules !! db = Some r /\ rule_matches r table = true.

(** The same, as a test on the rules the map holds itself. *)
Definition own_rule_matches (m : option (gmap string SchemaRule))
    (db table : string) : bool :=
  match m with
  | Some rules =>
      match rules !! db with
      | Some r => rule_matches r table
      | None => false
      end
  | None => false
  end.

(** The three pieces of [TableInfoQueryTemplate] around its two [%s]. *)
Definition tableInfo_prefix : string :=
  ("SELECT " ++ nl ++
   "  COLUMN_NAME, COLLATION_NAME, CHARACTER_SET_NAME, " ++ nl ++
   "  COLUMN_COMMENT, COLUMN_TYPE " ++ nl ++
   "  FROM INFORMATION_SCHEMA.COLUMNS WHERE TABLE_SCHEMA='")%string.

Definition tableInfo_middle : string := "' AND TABLE_NAME='".

Definition tableInfo_suffix : string :=
  ("' " ++ nl ++ "  ORDER BY ORDINAL_POSITION")%string.

(** [KILL] callbacks still waiting, and ['stopped'] notifications in a list
    of actions. *)
Definition is_kill (k : cont) : bool :=
  match k with KKill => true | _ => false end.

Fixpoint kills (l : list cont) : nat :=
  match l with
  | [] => 0
  | k :: l' => (if is_kill k then 1 else 0) + kills l'
  end.

Definition is_stopped_note (a : action) : bool :=
  match a with Emit NStopped => true | _ => false end.

Fixpoint count_stopped (out : list action) : nat :=
  match out with
  | [] => 0
  | a :: out' => (if is_stopped_note a then 1 else 0) + count_stopped out'
  end.

(** The ['stopped'] notifications still to come: one per waiting [KILL]
    callback, and one more while [stop] has not been called. *)
Definition kill_potential (s : State) : nat :=
  kills (pending s) + (if stopped s then 0 else 1).

(** Inputs after which no failure is reported to a callback: a query is
    answered with at least one row, and no connection raises an error. *)
Definition answers_ok (i : input) : bool :=
  match i with
  | Reply _ (QRows (_ :: _)) => true
  | Reply _ _ => false
  | ConnectionError _ _ => false
  | _ => true
  end.

(** [SHOW BINARY LOGS] callbacks still waiting. *)
Definition is_show (k : cont) : bool :=
  match k with KShowBinaryLogs _ => true | _ => false end.

Fixpoint shows (l : list cont) : nat :=
  match l with
  | [] => 0
  | k :: l' => (if is_show k then 1 else 0) + shows l'
  end.

Definition is_start (i : input) : bool :=
  match i with Start _ => true | _ => false end.

(** The session has seen exactly one [start(o)]: its run is the only one,
    and [ready] is set only when all its promises are resolved. *)
Definition run_ok (o : StartArg) (st : State) : Prop :=
  exists r, runs st = [r] /\ run_arg r = o /\
    (pAll r = Resolved -> all_resolved r = true) /\
    (ready st = true -> all_resolved r = true).

(** While the answer to [SHOW BINARY LOGS] is awaited, the promise of
    [findBinlogEnd] is pending and the options are those of the caller. *)
Definition awaiting (o : StartArg) (st : State) : Prop :=
  shows (pending st) <= 1 /\
  forall rid, In (KShowBinaryLogs rid) (pending st) ->
    rid = 0 /\ pBinlogEnd <$> runs st !! 0 = Some (Some Pending) /\
    options st = arg_options o.

Definition single_run (o : StartArg) (st : State) : Prop :=
  run_ok o st /\ awaiting o st.

(** What the answer to [SHOW BINARY LOGS] makes of the options of run
    [o]. *)
Definition resolved_options (o : Options) (now : Options) (rows : list row) : Options :=
  match last rows with
  | Some r => assign_binlog_end o r
  | None => now
  end.

(** ** Relations between the session before and after a piece of code

    A relation between the session before a piece of code, the session
    after it and the actions performed, that holds of doing nothing and
    composes along sequencing. *)

Class Compositional (R : State -> State -> list action -> Prop) := {
  comp_refl : forall s, R s s [];
  comp_trans : forall s1 s2 s3 o1 o2,
    R s1 s2 o1 -> R s2 s3 o2 -> R s1 s3 (o1 ++ o2)
}.

Definition keeps (R : State -> State -> list action -> Prop) (a : act) : Prop :=
  forall st, R st (fst (a st)) (snd (a st)).

(** [stopped] and [ready] are never reset; ['ready'] is emitted only by a
    session that is not stopped, and sets [ready]; a stopped session keeps
    its [ready] flag. *)
Definition Rflags (s s' : State) (o : list action) : Prop :=
  (stopped s = true -> stopped s' = true) /\
  (ready s = true -> ready s' = true) /\
  (In (Emit NReady) o -> stopped s = false /\ ready s' = true) /\
  (stopped s = true -> ready s' = ready s).

(** Every ['stopped'] emitted uses up one unit of [kill_potential]. *)
Definition Rkill (s s' : State) (o : list action) : Prop :=
  kill_potential s' + count_stopped o = kill_potential s.

(** No ['error'] is emitted and no [Promise.all] becomes rejected. *)
Definition Rerr (s s' : State) (o : list action) : Prop :=
  (forall e, ~ In (Emit (NError e)) o) /\
  (forall rid e,
     pAll <$> runs s' !! rid = Some (Rejected e) ->
     pAll <$> runs s !! rid = Some (Rejected e)).

(** With no [SHOW BINARY LOGS] callback waiting, the options stay and no
    such callback appears. *)
Definition Ropt (s s' : State) (o : list action) : Prop :=
  shows (pending s) = 0 -> options s' = options s /\ shows (pending s') = 0.

(** A field that a piece of code leaves alone. *)
Definition Rframe {A} (proj : State -> A) (s s' : State) (o : list action) : Prop :=
  proj s' = proj s.

(** [run_ok] and [awaiting] as relations. *)
Definition Rok (o : StartArg) (s s' : State) (out : list action) : Prop :=
  run_ok o s -> run_ok o s'.

(** Updates of a run that keep its promises consistent. *)
Definition sound (f : Run -> Run) : Prop :=
  forall r,
    run_arg (f r) = run_arg r /\
    (all_resolved r = true -> all_resolved (f r) = true) /\
    ((pAll r = Resolved -> all_resolved r = true) ->
     pAll (f r) = Resolved -> all_resolved (f r) = true).

Definition Rawait (o : StartArg) (s s' : State) (out : list action) : Prop :=
  awaiting o s -> awaiting o s'.

(** ** Vocabulary of the further properties *)

Definition is_stop (i : input) : bool :=
  match i with Stop => true | _ => false end.

(** Occurrences in a list of actions of the actions that satisfy [p]. *)
Fixpoint count_act (p : action -> bool) (out : list action) : nat :=
  match out with
  | [] => 0
  | a :: out' => (if p a then 1 else 0) + count_act p out'
  end.

Definition is_ready_note (a : action) : bool :=
  match a with Emit NReady => true | _ => false end.

Definition is_destroy (c : conn) (a : action) : bool :=
  match a, c with
  | Destroy Ctrl, Ctrl => true
  | Destroy Stream, Stream => true
  | _, _ => false
  end.

(** Uses of the stream connection that belong to a live session: flow
    control, the binlog stream, the teardown itself and ['ready']. *)
Definition stream_use (a : action) : bool :=
  match a with
  | PauseConn | ResumeConn | NewBinlogStream | BinlogStart
  | Destroy Stream | Emit NReady => true
  | _ => false
  end.

(** Callbacks of the checksum negotiation still waiting. *)
Definition is_checksum_cont (k : cont) : bool :=
  match k with
  | KSelectChecksum _ | KAfterThen _ | KAfterCatch _ => true
  | _ => false
  end.

Fixpoint checksum_conts (l : list cont) : nat :=
  match l with
  | [] => 0
  | k :: l' => (if is_checksum_cont k then 1 else 0) + checksum_conts l'
  end.

(** The character ['] does not occur in a string. *)
Fixpoint quote_free (s : string) : bool :=
  match s with
  | EmptyString => true
  | String c s' => negb (Ascii.eqb c "'"%char) && quote_free s'
  end.

(** [ready] and [binlogStream] are set exactly by the code that emits
    ['ready']. *)
Definition Rready (s s' : State) (o : list action) : Prop :=
  ready s' = ready s || existsb is_ready_note o /\
  binlogStream s' = binlogStream s || existsb is_ready_note o.

(** A stopped session stays stopped and makes no use of the stream
    connection. *)
Definition Rquiet (s s' : State) (o : list action) : Prop :=
  stopped s = true ->
  stopped s' = true /\ Forall (fun a => stream_use a = false) o.

(** The stream connection is destroyed by the call that stops the session;
    a session that owns its control connection destroys it once per
    ['stopped']. *)
Definition Rtear (s s' : State) (o : list action) : Prop :=
  (if stopped s' then 0 else 1) + count_act (is_destroy Stream) o =
    (if stopped s then 0 else 1) /\
  ctrlConnectionOwner s' = ctrlConnectionOwner s /\
  (ctrlConnectionOwner s = true ->
   count_act (is_destroy Ctrl) o = count_stopped o).

(** The checksum negotiation of the first run can make no further step: its
    promise is pending and none of its callbacks is waiting. *)
Definition stuck (st : State) : Prop :=
  checksum_conts (pending st) = 0 /\ pChecksum <$> runs st !! 0 = Some Pending.

Definition Rstuck (s s' : State) (o : list action) : Prop := stuck s -> stuck s'.

(** The promise of [findBinlogEnd] of the first run stays rejected. *)
Definition Rlost (e : JsError) (s s' : State) (o : list action) : Prop :=
  pBinlogEnd <$> runs s !! 0 = Some (Some (Rejected e)) ->
  pBinlogEnd <$> runs s' !! 0 = Some (Some (Rejected e)).

Definition is_pending (p : pstate) : bool :=
  match p with Pending => true | _ => false end.

(** Calls of [start] whose [Promise.all] is not settled yet. *)
Fixpoint undecided (l : list Run) : nat :=
  match l with
  | [] => 0
  | r :: l' => (if is_pending (pAll r) then 1 else 0) + undecided l'
  end.

Definition run_pending (rid : nat) (s : State) : bool :=
  match runs s !! rid with
  | Some r => is_pending (pAll r)
  | None => false
  end.

Fixpoint count_starts (ins : list input) : nat :=
  match ins with
  | [] => 0
  | i :: ins' => (if is_start i then 1 else 0) + count_starts ins'
  end.

(** Code that may settle the [Promise.all] of run [rid] but does not run its
    reaction: no ['ready'], and one undecided call fewer if it settles. *)
Definition Rsettle (rid : nat) (s s' : State) (o : list action) : Prop :=
  count_act is_ready_note o = 0 /\
  undecided (runs s') +
    (if run_pending rid s && negb (run_pending rid s') then 1 else 0)
  <= undecided (runs s).

(** Every ['ready'] uses up one undecided call of [start]. *)
Definition Rone (s s' : State) (o : list action) : Prop :=
  count_act is_ready_note o + undecided (runs s') <= undecided (runs s).

Definition is_connected (i : input) : bool :=
  match i with Connected _ => true | _ => false end.

(** * Properties *)

Lemma includes_In (l : list string) (x : string) :
  includes l x = true <-> In x l.
Proof.
  unfold includes. rewrite existsb_exists. split.
  - intros (y & Hy & He). apply String.eqb_eq in He. by subst.
  - intros H. exists x. split; [done | apply String.eqb_refl].
Qed.

(** ** Filter policy *)

Lemma rule_matches_list (l : list string) (table : string) :
  rule_matches (RList l) table = true <-> In table l.
Proof. apply includes_In. Qed.

(** Scenarios of the specification. *)
Example skipEvent_scenario :
  let f := MkFilters (Some ["WriteRows"]) None None None in
  _skipEvent f "WriteRows" = false /\ _skipEvent f "UpdateRows" = true.
Proof. split; reflexivity. Qed.

Example skipSchema_scenario :
  let f := MkFilters None None (Some {[ "db1" := RList ["t1"] ]}) None in
  _skipSchema f "db1" "t2" = OVal (VBool true) /\
  _skipSchema f "db1" "t1" = OVal (VBool false).
Proof. split; vm_compute; reflexivity. Qed.

(** C3: [_skipEvent f n] is [true] exactly when [excludeEvents] is present
    and contains [n], or [includeEvents] is present and does not contain
    [n]; an event listed in both is skipped. *)
Theorem skipEvent_spec (f : Filters) (n : string) :
  (_skipEvent f n = true <->
     (exists ex, excludeEvents f = Some ex /\ In n ex) \/
     (exists inc, includeEvents f = Some inc /\ ~ In n inc)) /\
  (forall inc ex,
     includeEvents f = Some inc -> excludeEvents f = Some ex ->
     In n inc -> In n ex -> _skipEvent f n = true).
Proof.
  unfold _skipEvent. split.
  - destruct (excludeEvents f) as [ex|], (includeEvents f) as [inc|]; simpl.
    + rewrite orb_true_iff, negb_true_iff, includes_In. split.
      * intros [H|H]; [left; eauto | right]. exists inc. split; [done|].
        rewrite <- includes_In. by rewrite H.
      * intros [(ex' & [= <-] & H)|(inc' & [= <-] & H)]; [by left | right].
        rewrite <- includes_In in H. by destruct (includes inc n).
    + rewrite orb_false_r, includes_In. split.
      * intros H; left; eauto.
      * intros [(ex' & [= <-] & H)|(inc' & [=] & _)]; done.
    + rewrite negb_true_iff. split.
      * intros H. right. exists inc. split; [done|].
        rewrite <- includes_In. by rewrite H.
      * intros [(ex' & [=] & _)|(inc' & [= <-] & H)].
        rewrite <- includes_In in H. by destruct (includes inc n).
    + split; [done|]. intros [(ex' & [=] & _)|(inc' & [=] & _)].
  - intros inc ex -> -> _ Hex. apply includes_In in Hex. by rewrite Hex.
Qed.

Lemma skipEvent_spec_witness :
  let f := MkFilters (Some ["WriteRows"; "DeleteRows"]) (Some ["DeleteRows"]) None None in
  _skipEvent f "DeleteRows" = true.
Proof.
  intros f.
  apply (proj2 (skipEvent_spec f "DeleteRows") ["WriteRows"; "DeleteRows"] ["DeleteRows"]);
    [reflexivity | reflexivity | simpl; tauto | simpl; tauto].
Defined.

Lemma own_rule_matches_spec (m : option (gmap string SchemaRule))
    (db table : string) :
  own_rule_matches m db table = true <-> has_matching_rule m db table.
Proof.
  unfold own_rule_matches, has_matching_rule. destruct m as [rules|].
  - destruct (rules !! db) as [r|] eqn:E; split.
    + intros H. by exists rules, r.
    + intros (m' & r' & [= <-] & Hr & Hm). congruence.
    + done.
    + intros (m' & r' & [= <-] & Hr & Hm). congruence.
  - split; [done|]. by intros (m' & r' & [=] & _).
Qed.

(** For a name that [Object.prototype] does not define, [in] finds the
    rules the map holds itself and no others. *)
Lemma rule_test_own (rules : gmap string SchemaRule) (db table : string) :
  proto_member db = None ->
  rule_test rules db table = OVal (VBool (own_rule_matches (Some rules) db table)).
Proof.
  intros H. unfold rule_test, own_rule_matches. rewrite H.
  by destruct (rules !! db).
Qed.

Lemma skipSchema_own (f : Filters) (db table : string) :
  proto_member db = None ->
  _skipSchema f db table =
  OVal (VBool (own_rule_matches (excludeSchema f) db table ||
               match includeSchema f with
               | None => false
               | Some inc => negb (own_rule_matches (Some inc) db table)
               end)).
Proof.
  intros H. unfold _skipSchema.
  assert (He : rule_test (default ∅ (excludeSchema f)) db table =
               OVal (VBool (own_rule_matches (excludeSchema f) db table))).
  { rewrite rule_test_own by done. destruct (excludeSchema f) as [ex|]; [done|].
    unfold own_rule_matches. simpl. by rewrite lookup_empty. }
  rewrite He. destruct (includeSchema f) as [inc|].
  - rewrite rule_test_own by done. simpl.
    by destruct (own_rule_matches (excludeSchema f) db table).
  - simpl. by destruct (own_rule_matches (excludeSchema f) db table).
Qed.

(** C4: the claim fails for schemas named like a member of
    [Object.prototype].  With no filters at all, where the claim has every
    pair kept, the schema [toString] is skipped with the result
    ["[object Object]"], the schema [constructor] is skipped with an object
    as result, and the schema [__defineGetter__] makes [_skipSchema] throw;
    with [includeSchema = {t1: true}] the table [t1] of the schema
    [hasOwnProperty], which has no rule, is kept. *)
Theorem skipSchema_inherited_names (table : string) :
  (includeSchema no_filters = None /\
   ~ has_matching_rule (excludeSchema no_filters) "toString" table) /\
  _skipSchema no_filters "toString" table = OVal (VStr "[object Object]") /\
  _skipSchema no_filters "constructor" table = OObject /\
  _skipSchema no_filters "__defineGetter__" table = OThrow /\
  (let f := MkFilters None None (Some {[ "t1" := RAll ]}) None in
   ~ has_matching_rule (includeSchema f) "hasOwnProperty" "t1" /\
   _skipSchema f "hasOwnProperty" "t1" = OVal (VBool false)).
Proof.
  split; [split; [done|] |split; [|split; [|split; [|split]]]].
  - by intros (m & r & [=] & _).
  - reflexivity.
  - reflexivity.
  - reflexivity.
  - intros (m & r & [= <-] & Hr & _). by vm_compute in Hr.
  - by vm_compute.
Qed.

(** X21: for every schema whose name [Object.prototype] does not define,
    [_skipSchema] returns a boolean, and it returns [true] exactly when the
    pair is excluded (the rule of [db] in [excludeSchema] matches [table]) or
    not included ([includeSchema] is present and [db] has no rule in it, or
    its rule does not match [table]).  A rule matches by the three-way test:
    [true] matches every table, an array by membership, a function by its
    result.  Without [includeSchema] only exclusion skips; without
    [excludeSchema] nothing is excluded. *)
Theorem skipSchema_own_rules (f : Filters) (db table : string) :
  proto_member db = None ->
  (exists b, _skipSchema f db table = OVal (VBool b)) /\
  (_skipSchema f db table = OVal (VBool true) <->
     has_matching_rule (excludeSchema f) db table \/
     (exists inc, includeSchema f = Some inc /\
        (inc !! db = None \/
         exists r, inc !! db = Some r /\ rule_matches r table = false))) /\
  (rule_matches RAll table = true /\
   (forall l, rule_matches (RList l) table = true <-> In table l) /\
   (forall p, rule_matches (RPred p) table = p (VStr table))) /\
  (includeSchema f = None ->
     (_skipSchema f db table = OVal (VBool true) <->
        has_matching_rule (excludeSchema f) db table)) /\
  (excludeSchema f = None ->
     ~ has_matching_rule (excludeSchema f) db table /\
     (_skipSchema f db table = OVal (VBool true) <->
        exists inc, includeSchema f = Some inc /\
          ~ has_matching_rule (Some inc) db table)).
Proof.
  intros Hdb. rewrite (skipSchema_own f db table Hdb).
  assert (Hb : forall b : bool, OVal (VBool b) = OVal (VBool true) <-> b = true).
  { intros b. split; [by intros [= ->] | by intros ->]. }
  rewrite Hb, orb_true_iff, own_rule_matches_spec.
  split; [eauto|]. split; [split | split; [split; [|split] | split]].
  - intros [H|H]; [by left|right].
    destruct (includeSchema f) as [inc|]; [|done]. exists inc. split; [done|].
    apply negb_true_iff in H. unfold own_rule_matches in H.
    destruct (inc !! db) as [r|]; [right; eauto | by left].
  - intros [H|(inc & -> & [Hn|(r & Hr & Hm)])]; [by left | right | right];
      unfold own_rule_matches.
    + by rewrite Hn.
    + by rewrite Hr, Hm.
  - done.
  - intros l. apply rule_matches_list.
  - done.
  - intros Hi. rewrite Hi. split; [by intros [H|H] | by left].
  - intros He. split.
    + intros (m & r & Hm & _). rewrite He in Hm. done.
    + rewrite He. split.
      * intros [(m & r & [=] & _)|H].
        destruct (includeSchema f) as [inc|]; [|done]. exists inc.
        split; [done|]. apply negb_true_iff in H.
        rewrite <- own_rule_matches_spec. by rewrite H.
      * intros (inc & -> & Hn). right. apply negb_true_iff.
        rewrite <- own_rule_matches_spec in Hn.
        by destruct (own_rule_matches (Some inc) db table).
Qed.

Lemma skipSchema_own_rules_witness :
  let f := MkFilters None None None (Some {[ "db1" := RAll ]}) in
  _skipSchema f "db1" "t1" = OVal (VBool true) <->
  has_matching_rule (excludeSchema f) "db1" "t1".
Proof.
  intros f.
  apply (proj1 (proj2 (proj2 (proj2 (skipSchema_own_rules f "db1" "t1" eq_refl))))).
  reflexivity.
Defined.

(** ** Callbacks waiting at the SQL client *)

Lemma reply_at (st : State) (i : nat) (k : cont) (res : QueryResult) :
  pending st !! i = Some k ->
  step st (Reply i res) = run_cont k res (set_pending (delete i (pending st)) st).
Proof.
  intros H. simpl. unfold reply. rewrite H.
  unfold andThen, modify. by destruct (run_cont k res _).
Qed.

Lemma query_pending (c : conn) (sql : string) (k : cont) (st : State) :
  query c sql k st = (set_pending (pending st ++ [k]) st, [Query c sql]).
Proof. reflexivity. Qed.

Lemma lookup_snoc_last {A} (l : list A) (x : A) : (l ++ [x]) !! length l = Some x.
Proof. by rewrite list_lookup_middle. Qed.

Lemma delete_snoc_last {A} (l : list A) (x : A) : delete (length l) (l ++ [x]) = l.
Proof. rewrite delete_middle. apply app_nil_r. Qed.

(** A query followed at once by its answer. *)
Lemma query_then_reply (c : conn) (sql : string) (k : cont) (res : QueryResult)
    (st : State) :
  step (fst (query c sql k st)) (Reply (length (pending st)) res) =
  run_cont k res st.
Proof.
  rewrite query_pending. simpl fst.
  rewrite (reply_at _ _ k); [|apply lookup_snoc_last].
  simpl. rewrite delete_snoc_last. by destruct st.
Qed.

(** ** Table metadata cache *)

Lemma on_table_info_rows (ev : TableMapEvent) (rows : list row) (st : State) :
  rows <> [] ->
  on_table_info ev (QRows rows) st =
  (set_tableMap
     (<[ev_tableId ev := MkTableInfo rows (ev_schemaName ev) (ev_tableName ev)]>
        (tableMap st)) st,
   [CallNext ev]).
Proof. destruct rows; [done|]. reflexivity. Qed.

(** C5: two table-map events with the same [tableId], both answered with
    rows: the cache then holds under that id exactly the entry built from
    the second event, and the whole cache is the one that the second event
    alone would have produced. *)
Theorem tableMap_last_write_wins (st : State) (ev1 ev2 : TableMapEvent)
    (rows1 rows2 : list row) :
  ev_tableId ev1 = ev_tableId ev2 -> rows1 <> [] -> rows2 <> [] ->
  let n := length (pending st) in
  let st' := fst (run st [FetchTableInfo ev1; Reply n (QRows rows1);
                          FetchTableInfo ev2; Reply n (QRows rows2)]) in
  tableMap st' !! ev_tableId ev1 =
    Some (MkTableInfo rows2 (ev_schemaName ev2) (ev_tableName ev2)) /\
  tableMap st' =
    tableMap (fst (run st [FetchTableInfo ev2; Reply n (QRows rows2)])).
Proof.
  intros Hid H1 H2 n st'. subst st' n.
  assert (Hrun : forall s ev rows, rows <> [] ->
    run s [FetchTableInfo ev; Reply (length (pending s)) (QRows rows)] =
    (set_tableMap
       (<[ev_tableId ev := MkTableInfo rows (ev_schemaName ev) (ev_tableName ev)]>
          (tableMap s)) s,
     [Query Ctrl (tableInfo_sql ev); CallNext ev])).
  { intros s ev rows Hr.
    pose proof (query_then_reply Ctrl (tableInfo_sql ev) (KTableInfo ev) (QRows rows) s) as Hq.
    cbn [run]. change (step s (FetchTableInfo ev)) with (query Ctrl (tableInfo_sql ev) (KTableInfo ev) s).
    rewrite query_pending in *. cbn [fst] in Hq. rewrite Hq.
    cbn [run_cont]. by rewrite on_table_info_rows. }
  change [FetchTableInfo ev1; Reply (length (pending st)) (QRows rows1);
          FetchTableInfo ev2; Reply (length (pending st)) (QRows rows2)]
    with ([FetchTableInfo ev1; Reply (length (pending st)) (QRows rows1)] ++
          [FetchTableInfo ev2; Reply (length (pending st)) (QRows rows2)])%list.
  assert (Happ : forall s a b, run s (a ++ b) =
    let '(s1, o1) := run s a in let '(s2, o2) := run s1 b in (s2, (o1 ++ o2)%list)).
  { intros s a. revert s. induction a as [|x a IH]; intros s b; simpl.
    - by destruct (run s b).
    - destruct (step s x) as [s1 o1]. rewrite IH.
      destruct (run s1 a) as [s2 o2]. destruct (run s2 b) as [s3 o3].
      by rewrite app_assoc. }
  rewrite Happ, (Hrun st ev1 rows1 H1).
  pose proof (Hrun (set_tableMap
       (<[ev_tableId ev1 := MkTableInfo rows1 (ev_schemaName ev1) (ev_tableName ev1)]>
          (tableMap st)) st) ev2 rows2 H2) as Hsnd.
  simpl pending in Hsnd. rewrite Hsnd, (Hrun st ev2 rows2 H2). simpl.
  rewrite Hid. split; [apply lookup_insert_eq | apply insert_insert_eq].
Qed.

Lemma tableMap_last_write_wins_witness :
  let ev1 := MkTableMapEvent 7 "db1" "old" in
  let ev2 := MkTableMapEvent 7 "db2" "new" in
  let r1 : row := {[ "COLUMN_NAME" := VStr "a" ]} in
  let r2 : row := {[ "COLUMN_NAME" := VStr "b" ]} in
  tableMap (fst (run (ZongJi_new true)
    [FetchTableInfo ev1; Reply 0 (QRows [r1]);
     FetchTableInfo ev2; Reply 0 (QRows [r2])])) !! 7%N =
  Some (MkTableInfo [r2] "db2" "new").
Proof.
  intros ev1 ev2 r1 r2.
  apply (tableMap_last_write_wins (ZongJi_new true) ev1 ev2 [r1] [r2]);
    [reflexivity | discriminate | discriminate].
Defined.

(** C6: the metadata query is answered with zero rows: one error is
    emitted, whose message names insufficient permissions or a dropped table;
    nothing else changes, so a session with [stopped = false] and
    [ready = true] keeps both flags. *)
Theorem zero_rows_is_not_fatal (st : State) (i : nat) (ev : TableMapEvent) :
  pending st !! i = Some (KTableInfo ev) ->
  stopped st = false -> ready st = true ->
  let st' := fst (step st (Reply i (QRows []))) in
  snd (step st (Reply i (QRows []))) = [Emit (NError (permission_error ev))] /\
  err_message (permission_error ev) =
    ("Insufficient permissions to access [" ++ ev_schemaName ev ++ "." ++
     ev_tableName ev ++ "], or the table has been dropped.")%string /\
  stopped st' = false /\ ready st' = true /\
  st' = set_pending (delete i (pending st)) st.
Proof.
  intros Hp Hs Hr st'. subst st'. rewrite (reply_at _ _ _ _ Hp). simpl.
  repeat split; done.
Qed.

Lemma zero_rows_is_not_fatal_witness :
  let ev := MkTableMapEvent 3 "db1" "t1" in
  let st := set_ready true (fst (step (ZongJi_new true) (FetchTableInfo ev))) in
  snd (step st (Reply 0 (QRows []))) =
    [Emit (NError (MkError "Error"
       "Insufficient permissions to access [db1.t1], or the table has been dropped."))].
Proof.
  intros ev st.
  apply (zero_rows_is_not_fatal st 0 ev); reflexivity.
Defined.

(** ** Metadata query text *)

Lemma tableInfo_sql_eq (ev : TableMapEvent) :
  tableInfo_sql ev =
  (tableInfo_prefix ++ ev_schemaName ev ++ tableInfo_middle ++ ev_tableName ev ++
   tableInfo_suffix)%string.
Proof. reflexivity. Qed.

(** C9: the metadata lookup sends one statement on the control connection;
    its text is the template with the schema name and the table name
    substituted for the two quoted [%s] (the names are part of the SQL text,
    no parameter is bound), the [WHERE] clause names that schema and that
    table, and the rows are ordered by ordinal position. *)
Theorem fetchTableInfo_query (st : State) (ev : TableMapEvent) :
  step st (FetchTableInfo ev) =
  (set_pending (pending st ++ [KTableInfo ev]) st,
   [Query Ctrl
      (tableInfo_prefix ++ ev_schemaName ev ++ tableInfo_middle ++
       ev_tableName ev ++ tableInfo_suffix)%string]) /\
  tableInfo_prefix =
    ("SELECT " ++ nl ++
     "  COLUMN_NAME, COLLATION_NAME, CHARACTER_SET_NAME, " ++ nl ++
     "  COLUMN_COMMENT, COLUMN_TYPE " ++ nl ++
     "  FROM INFORMATION_SCHEMA.COLUMNS WHERE TABLE_SCHEMA='")%string /\
  tableInfo_middle = "' AND TABLE_NAME='" /\
  tableInfo_suffix = ("' " ++ nl ++ "  ORDER BY ORDINAL_POSITION")%string.
Proof. repeat split. Qed.

(** The statement text depends on the names, and a quote inside a name ends
    the SQL string literal it was put in. *)
Lemma fetchTableInfo_interpolates :
  tableInfo_sql (MkTableMapEvent 1 "db1" "t1") <>
  tableInfo_sql (MkTableMapEvent 1 "db2" "t1") /\
  snd (step (ZongJi_new true)
         (FetchTableInfo (MkTableMapEvent 1 "db1" "t' OR '1'='1"))) =
  [Query Ctrl
     ("SELECT " ++ nl ++
      "  COLUMN_NAME, COLLATION_NAME, CHARACTER_SET_NAME, " ++ nl ++
      "  COLUMN_COMMENT, COLUMN_TYPE " ++ nl ++
      "  FROM INFORMATION_SCHEMA.COLUMNS WHERE TABLE_SCHEMA='db1' AND TABLE_NAME='t' OR '1'='1' " ++ nl ++
      "  ORDER BY ORDINAL_POSITION")%string].
Proof. split; [discriminate | reflexivity]. Qed.

(** ** Executing handlers symbolically *)

Lemma alter_snoc {A} (f : A -> A) (l : list A) (x : A) :
  alter f (length l) (l ++ [x]) = l ++ [f x].
Proof. induction l as [|y l IH]; simpl; [done|]. f_equal. apply IH. Qed.

Create HintDb acts.
#[local] Hint Unfold step reply run_cont reacting react start stop pause resume
    on_kill on_table_info _fetchTableInfo on_show_binary_logs
    findBinlogEnd_next findBinlogEnd _findBinlogEnd testChecksum
    testChecksum_next on_select_checksum on_after_then on_after_catch
    then_handler catch_handler final_then _isChecksumEnabled all_then
    all_catch resolve reject upd_run with_run query _options _filters
    emit perform modify read skip andThen : acts.

Ltac unfold_acts := repeat autounfold with acts.

Ltac st_simpl :=
  cbn [fst snd options filters tableMap ready stopped useChecksum
       ctrlConnectionOwner BinlogClass binlogStream binlogHasStart threadId
       runs pending set_options set_filters set_tableMap set_ready set_stopped
       set_useChecksum set_BinlogClass set_binlogStream set_threadId set_runs
       set_pending run_arg checksumEnabled pChecksum pBinlogEnd pAll
       set_checksumEnabled set_pChecksum set_pBinlogEnd set_pAll get_p set_p
       resolve_in reject_in all_resolved is_resolved andb negb orb
       fmap option_fmap option_map notifications omap list_omap].

Ltac exec :=
  repeat (st_simpl;
          rewrite ?alter_snoc, ?lookup_snoc_last, ?list_lookup_alter_eq, ?app_nil_r).

(** [start] on a session that is not stopped: both queries go out. *)
Lemma step_start_live (st : State) (o : StartArg) :
  stopped st = false ->
  let rid := length (runs st) in
  let wantEnd := truthy (startAtEnd (arg_options o)) in
  step st (Start o) =
  (set_pending
     (pending st ++ KSelectChecksum rid :: (if wantEnd then [KShowBinaryLogs rid] else []))
     (set_runs
        (runs st ++ [MkRun o true Pending (if wantEnd then Some Pending else None) Pending])
        (set_filters (arg_filters o) (set_options (arg_options o) st))),
   Query Ctrl SelectChecksumParamSql ::
     (if wantEnd then [Query Ctrl "SHOW BINARY LOGS"] else [])).
Proof.
  intros Hs rid wantEnd. destruct st. simpl in Hs. subst.
  unfold_acts. st_simpl. fold wantEnd. fold rid.
  destruct wantEnd; unfold rid; exec; rewrite <- ?app_assoc; reflexivity.
Qed.

(** [start] on a stopped session: the guards of lines 148 and 159 resolve
    both promises, no query goes out, and line 177 keeps the stream closed. *)
Lemma step_start_stopped (st : State) (o : StartArg) :
  stopped st = true ->
  let wantEnd := truthy (startAtEnd (arg_options o)) in
  step st (Start o) =
  (set_BinlogClass true
     (set_runs
        (runs st ++ [MkRun o true Resolved (if wantEnd then Some Resolved else None) Resolved])
        (set_filters (arg_filters o) (set_options (arg_options o) st))),
   [InitBinlogClass]).
Proof.
  intros Hs wantEnd. destruct st. simpl in Hs. subst.
  unfold_acts. st_simpl. fold wantEnd.
  destruct wantEnd; exec; reflexivity.
Qed.

(** ** Checksum negotiation *)

(** C10: the checksum query of a live [start] fails with an error that
    does not match [ER_UNKNOWN_SYSTEM_VARIABLE].  The completion callback is
    then called twice, first with the error and then with success and
    [checksumEnabled = true]: the first call rejects the promise, so [start]
    fails (one error notification, [ready] untouched), and the second call
    still sets [useChecksum] to [true]. *)
Theorem checksum_failure_calls_back_twice (st : State) (o : StartArg) (e : JsError) :
  stopped st = false ->
  str_contains "ER_UNKNOWN_SYSTEM_VARIABLE" (err_toString e) = false ->
  let rid := length (runs st) in
  let i := length (pending st) in
  let st1 := fst (step st (Start o)) in
  let st2 := fst (step st1 (Reply i (QErr e))) in
  pending st1 !! i = Some (KSelectChecksum rid) /\
  (forall next s,
     on_select_checksum rid next (QErr e) s =
     (next (NextErr e) >>> final_then rid next) s) /\
  step st1 (Reply i (QErr e)) =
    (testChecksum_next rid (NextErr e) >>> testChecksum_next rid (NextOk true) >>>
     react rid) (set_pending (delete i (pending st1)) st1) /\
  notifications (snd (step st1 (Reply i (QErr e)))) = [NError e] /\
  useChecksum st2 = true /\ ready st2 = ready st /\
  pChecksum <$> runs st2 !! rid = Some (Rejected e) /\
  pAll <$> runs st2 !! rid = Some (Rejected e).
Proof.
  intros Hs He rid i st1 st2.
  assert (Hp : pending st1 !! i = Some (KSelectChecksum rid)).
  { subst st1. rewrite step_start_live by done. st_simpl. by apply list_lookup_middle. }
  split; [done|]. split.
  { intros next s. unfold on_select_checksum, catch_handler. by rewrite He. }
  subst st2. rewrite (reply_at _ _ _ _ Hp).
  subst st1. rewrite step_start_live by done. fold rid. fold i.
  clear Hp. destruct st. simpl in Hs. subst.
  unfold_acts. st_simpl. rewrite He. unfold rid, i.
  destruct (truthy (startAtEnd (arg_options o))); exec; repeat split; reflexivity.
Qed.

Lemma checksum_failure_calls_back_twice_witness :
  let e := MkError "Error" "connect ETIMEDOUT" in
  let st1 := fst (step (ZongJi_new true) (Start empty_arg)) in
  let st2 := fst (step st1 (Reply 0 (QErr e))) in
  notifications (snd (step st1 (Reply 0 (QErr e)))) = [NError e] /\
  useChecksum st2 = true /\ ready st2 = false.
Proof.
  intros e st1 st2.
  pose proof (checksum_failure_calls_back_twice (ZongJi_new true) empty_arg e
                eq_refl eq_refl) as H.
  destruct H as (_ & _ & _ & H1 & H2 & H3 & _).
  split; [exact H1 | split; [exact H2 | exact H3]].
Defined.

(** ** Relations kept by every piece of code

    A compositional relation holds of a method as soon as it holds of the
    primitive effects the method is made of. *)

Section Keeps.
Context (R : State -> State -> list action -> Prop) `{!Compositional R}.

Lemma keeps_skip : keeps R skip.
Proof. intros st. apply comp_refl. Qed.

Lemma keeps_andThen (a b : act) : keeps R a -> keeps R b -> keeps R (a >>> b).
Proof.
  intros Ha Hb st. unfold andThen.
  specialize (Ha st). destruct (a st) as [s1 o1].
  specialize (Hb s1). destruct (b s1) as [s2 o2].
  simpl in *. by eapply comp_trans.
Qed.

Lemma keeps_read {A} (f : State -> A) (k : A -> act) :
  (forall x, keeps R (k x)) -> keeps R (read f k).
Proof. intros Hk st. apply Hk. Qed.

Lemma keeps_with_run (rid : nat) (k : Run -> act) :
  (forall r, keeps R (k r)) -> keeps R (with_run rid k).
Proof.
  intros Hk st. unfold with_run.
  destruct (runs st !! rid); [apply Hk | apply comp_refl].
Qed.

Lemma keeps_react (rid : nat) :
  keeps R all_then -> (forall e, keeps R (all_catch e)) -> keeps R (react rid).
Proof.
  intros Ht Hc. apply keeps_with_run. intros r.
  destruct (pAll r); [apply keeps_skip | done | done].
Qed.

Lemma keeps_reacting (rid : nat) (body : act) :
  keeps R body -> keeps R (react rid) -> keeps R (reacting rid body).
Proof.
  intros Hb Hr st. unfold reacting.
  destruct (pAll <$> runs st !! rid) as [[| |]|]; try apply Hb.
  by apply keeps_andThen.
Qed.

(** The callback of a query runs once the query has left the waiting
    list. *)
Lemma keeps_reply (i : nat) (res : QueryResult) :
  (forall st k, pending st !! i = Some k ->
     let r := run_cont k res (set_pending (delete i (pending st)) st) in
     R st (fst r) (snd r)) ->
  keeps R (reply i res).
Proof.
  intros Hk st. unfold reply.
  destruct (pending st !! i) as [k|] eqn:E; [|apply comp_refl].
  specialize (Hk st k E). unfold andThen, modify.
  by destruct (run_cont k res _) as [s2 o2].
Qed.

Lemma keeps_after_delete (i : nat) (k : cont) (res : QueryResult) (st : State) :
  R st (set_pending (delete i (pending st)) st) [] ->
  keeps R (run_cont k res) ->
  let r := run_cont k res (set_pending (delete i (pending st)) st) in
  R st (fst r) (snd r).
Proof.
  intros Hd Hk r. subst r.
  specialize (Hk (set_pending (delete i (pending st)) st)).
  destruct (run_cont k res _) as [s2 o2]. simpl in *.
  change o2 with ([] ++ o2). by eapply comp_trans.
Qed.

(** A relation kept by every step is kept by every run. *)
Lemma keeps_run (P : input -> Prop) :
  (forall st i, P i -> R st (fst (step st i)) (snd (step st i))) ->
  forall ins st, Forall P ins -> R st (fst (run st ins)) (snd (run st ins)).
Proof.
  intros Hs ins. induction ins as [|i ins IH]; intros st HP; simpl.
  - apply comp_refl.
  - inversion HP as [|? ? Hi Hins]; subst.
    specialize (Hs st i Hi). destruct (step st i) as [s1 o1].
    specialize (IH s1 Hins). destruct (run s1 ins) as [s2 o2].
    simpl in *. by eapply comp_trans.
Qed.
End Keeps.

Create HintDb handlers.
#[local] Hint Unfold run_cont start pause resume on_kill
    on_table_info _fetchTableInfo on_show_binary_logs
    findBinlogEnd_next findBinlogEnd _findBinlogEnd testChecksum
    testChecksum_next on_select_checksum on_after_then on_after_catch
    then_handler catch_handler final_then _isChecksumEnabled
    resolve reject _options _filters emit all_catch : handlers.

Create HintDb keeps.

Ltac keeps_step :=
  first
  [ progress cbn beta iota
  | simple eapply @keeps_skip; typeclasses eauto
  | simple eapply @keeps_andThen; [typeclasses eauto .. | | ]
  | simple eapply @keeps_read; [typeclasses eauto .. | intros ?]
  | simple eapply @keeps_with_run; [typeclasses eauto .. | intros ?]
  | simple eapply @keeps_reacting; [typeclasses eauto .. | | ]
  | match goal with
    | |- keeps _ (match ?x with _ => _ end) => destruct x
    end
  | solve [auto with keeps] ].

Ltac keeps_tac := repeat autounfold with handlers; repeat keeps_step.

Ltac as_keeps :=
  match goal with
  | |- ?R ?st (fst (?a ?st)) (snd (?a ?st)) => revert st; change (keeps R a)
  end.

Lemma run_app (st : State) (a b : list input) :
  run st (a ++ b) =
  let '(s1, o1) := run st a in
  let '(s2, o2) := run s1 b in
  (s2, o1 ++ o2).
Proof.
  revert st. induction a as [|x a IH]; intros st; simpl.
  - by destruct (run st b).
  - destruct (step st x) as [s1 o1]. rewrite IH.
    destruct (run s1 a) as [s2 o2]. destruct (run s2 b) as [s3 o3].
    by rewrite app_assoc.
Qed.

(** ** Lifecycle flags *)

#[local] Instance Rflags_comp : Compositional Rflags.
Proof.
  split.
  - intros s. unfold Rflags. simpl. tauto.
  - intros s1 s2 s3 o1 o2 (A1 & A2 & A3 & A4) (B1 & B2 & B3 & B4).
    unfold Rflags. rewrite in_app_iff.
    destruct (stopped s1), (stopped s2), (stopped s3); intuition congruence.
Qed.

Lemma Rflags_modify (f : State -> State) :
  (forall st, stopped (f st) = stopped st /\ ready (f st) = ready st) ->
  keeps Rflags (modify f).
Proof.
  intros Hf st. destruct (Hf st) as [H1 H2]. unfold Rflags. simpl.
  rewrite H1, H2. tauto.
Qed.

Lemma Rflags_perform (x : action) : x <> Emit NReady -> keeps Rflags (perform x).
Proof. intros Hx st. unfold Rflags. simpl. intuition congruence. Qed.

Lemma Rflags_query (c : conn) (sql : string) (k : cont) :
  keeps Rflags (query c sql k).
Proof.
  unfold query. apply keeps_andThen; [apply _ | |].
  - by apply Rflags_perform.
  - by apply Rflags_modify.
Qed.

Lemma Rflags_upd_run (rid : nat) (f : Run -> Run) : keeps Rflags (upd_run rid f).
Proof. by apply Rflags_modify. Qed.

Lemma Rflags_all_then : keeps Rflags all_then.
Proof.
  intros [? ? ? ? s ? ? ? ? h ? ? ?].
  unfold all_then, andThen, read, perform, modify, emit, skip, perform.
  simpl. destruct s, h; unfold Rflags; simpl; intuition congruence.
Qed.

Lemma Rflags_stop : keeps Rflags stop.
Proof.
  intros [? ? ? ? s ? ? ? ? ? ? ? ?].
  unfold stop, andThen, read, perform, modify, query, skip, andThen, perform, modify.
  simpl. destruct s; unfold Rflags; simpl; intuition congruence.
Qed.

#[local] Hint Resolve Rflags_query Rflags_upd_run Rflags_all_then : keeps.
#[local] Hint Extern 1 (keeps Rflags (modify _)) =>
  apply Rflags_modify; intros []; split; reflexivity : keeps.
#[local] Hint Extern 1 (keeps Rflags (perform _)) =>
  apply Rflags_perform; discriminate : keeps.
#[local] Hint Extern 1 (keeps Rflags (react _)) =>
  apply keeps_react;
    [apply _ | apply Rflags_all_then | intros ?; apply Rflags_perform; discriminate]
  : keeps.

Lemma step_flags (st : State) (i : input) :
  Rflags st (fst (step st i)) (snd (step st i)).
Proof.
  destruct i; cbn [step]; try (as_keeps; keeps_tac; fail).
  - as_keeps. apply Rflags_stop.
  - as_keeps. apply keeps_reply; [apply _|]. intros s k Hk.
    apply keeps_after_delete; [apply _ | |].
    + unfold Rflags. simpl. tauto.
    + destruct k; keeps_tac.
  - destruct (binlogStream st); [|apply comp_refl]. as_keeps. keeps_tac.
Qed.

Lemma run_flags (st : State) (ins : list input) :
  Rflags st (fst (run st ins)) (snd (run st ins)).
Proof.
  apply (keeps_run Rflags (fun _ => True)).
  - intros s i _. apply step_flags.
  - by apply Forall_forall.
Qed.

(** ** The ['stopped'] notification

    Every ['stopped'] notification comes from the callback of one [KILL]
    query, and [stop] sends that query once: the number of [KILL] callbacks
    still waiting, plus one while the session is not stopped, plus the
    notifications emitted so far, never changes. *)

Lemma kills_app (l1 l2 : list cont) : kills (l1 ++ l2) = kills l1 + kills l2.
Proof. induction l1 as [|x l IH]; simpl; [done|]. rewrite IH. lia. Qed.

Lemma kills_delete (l : list cont) (i : nat) (k : cont) :
  l !! i = Some k -> kills l = kills (delete i l) + (if is_kill k then 1 else 0).
Proof.
  revert i. induction l as [|x l IH]; intros [|i] H; simpl in *; try done.
  - injection H as ->. lia.
  - apply IH in H. lia.
Qed.

Lemma kills_zero_not_In (l : list cont) : kills l = 0 <-> ~ In KKill l.
Proof.
  induction l as [|x l IH]; simpl; [tauto|].
  destruct x; simpl; rewrite ?IH; intuition (try discriminate; try lia).
Qed.

Lemma count_stopped_app (o1 o2 : list action) :
  count_stopped (o1 ++ o2) = count_stopped o1 + count_stopped o2.
Proof. induction o1 as [|x l IH]; simpl; [done|]. rewrite IH. lia. Qed.

#[local] Instance Rkill_comp : Compositional Rkill.
Proof.
  split.
  - intros s. unfold Rkill. simpl. lia.
  - intros s1 s2 s3 o1 o2. unfold Rkill. rewrite count_stopped_app. lia.
Qed.

Lemma Rkill_modify (f : State -> State) :
  (forall st, pending (f st) = pending st /\ stopped (f st) = stopped st) ->
  keeps Rkill (modify f).
Proof.
  intros Hf st. destruct (Hf st) as [H1 H2]. unfold Rkill, kill_potential. simpl.
  rewrite H1, H2. lia.
Qed.

Lemma Rkill_perform (x : action) : is_stopped_note x = false -> keeps Rkill (perform x).
Proof.
  intros Hx st. unfold Rkill, kill_potential. simpl. rewrite Hx. lia.
Qed.

Lemma Rkill_query (c : conn) (sql : string) (k : cont) :
  is_kill k = false -> keeps Rkill (query c sql k).
Proof.
  intros Hk st. unfold Rkill, kill_potential. simpl.
  rewrite kills_app. simpl. rewrite Hk. lia.
Qed.

Lemma Rkill_upd_run (rid : nat) (f : Run -> Run) : keeps Rkill (upd_run rid f).
Proof. by apply Rkill_modify. Qed.

Lemma Rkill_stop : keeps Rkill stop.
Proof.
  intros [? ? ? ? s ? ? ? ? ? ? ? ?].
  unfold stop, andThen, read, perform, modify, query, skip, andThen, perform, modify.
  simpl. destruct s; unfold Rkill, kill_potential; simpl; rewrite ?kills_app; simpl; lia.
Qed.

#[local] Hint Resolve Rkill_upd_run : keeps.
#[local] Hint Extern 1 (keeps Rkill (modify _)) =>
  apply Rkill_modify; intros []; split; reflexivity : keeps.
#[local] Hint Extern 1 (keeps Rkill (perform _)) =>
  apply Rkill_perform; reflexivity : keeps.
#[local] Hint Extern 1 (keeps Rkill (query _ _ _)) =>
  apply Rkill_query; reflexivity : keeps.

Lemma Rkill_all_then : keeps Rkill all_then.
Proof. unfold all_then. keeps_tac. Qed.

#[local] Hint Extern 1 (keeps Rkill (react _)) =>
  apply keeps_react;
    [apply _ | apply Rkill_all_then | intros ?; apply Rkill_perform; reflexivity]
  : keeps.

Lemma step_kill (st : State) (i : input) :
  Rkill st (fst (step st i)) (snd (step st i)).
Proof.
  destruct i; cbn [step]; try (as_keeps; keeps_tac; fail).
  - as_keeps. apply Rkill_stop.
  - as_keeps. apply keeps_reply; [apply _|]. intros s k Hk.
    pose proof (kills_delete _ _ _ Hk) as Hd.
    destruct (is_kill k) eqn:Ek.
    + destruct k; try discriminate. destruct s as [? ? ? ? sp ? own ? ? ? ? ? ?].
      unfold run_cont, on_kill, andThen, read, perform, emit, skip, perform.
      simpl in *. destruct own; unfold Rkill, kill_potential; simpl; lia.
    + apply keeps_after_delete; [apply _ | |].
      * unfold Rkill, kill_potential. simpl. lia.
      * destruct k; try discriminate; keeps_tac.
  - destruct (binlogStream st); [|apply comp_refl]. as_keeps. keeps_tac.
Qed.

Lemma run_kill (st : State) (ins : list input) :
  Rkill st (fst (run st ins)) (snd (run st ins)).
Proof.
  apply (keeps_run Rkill (fun _ => True)).
  - intros s i _. apply step_kill.
  - by apply Forall_forall.
Qed.

(** From a new session: at most one ['stopped'], and exactly one once the
    session is stopped and no [KILL] callback is waiting. *)
Lemma stopped_at_most_once (h : bool) (ins : list input) :
  let st := fst (run (ZongJi_new h) ins) in
  let out := snd (run (ZongJi_new h) ins) in
  count_stopped out <= 1 /\
  (stopped st = true -> ~ In KKill (pending st) -> count_stopped out = 1).
Proof.
  intros st out. pose proof (run_kill (ZongJi_new h) ins) as H.
  unfold Rkill, kill_potential in H. fold st out in H. simpl in H.
  split; [lia|]. intros Hs Hk. apply kills_zero_not_In in Hk.
  rewrite Hs, Hk in H. lia.
Qed.

(** ** Error notifications

    Code that rejects no promise and emits no ['error'] itself leaves every
    [Promise.all] that was not rejected unrejected, so the reaction that
    follows it emits no ['error'] either. *)

#[local] Instance Rerr_comp : Compositional Rerr.
Proof.
  split.
  - intros s. unfold Rerr. simpl. tauto.
  - intros s1 s2 s3 o1 o2 [A1 A2] [B1 B2]. split.
    + intros e. rewrite in_app_iff. intros [H|H]; [by eapply A1 | by eapply B1].
    + intros rid e H. by apply A2, B2.
Qed.

Lemma Rerr_modify (f : State -> State) :
  (forall st, runs (f st) = runs st) -> keeps Rerr (modify f).
Proof.
  intros Hf st. unfold Rerr. simpl. rewrite Hf. tauto.
Qed.

Lemma Rerr_perform (x : action) :
  (forall e, x <> Emit (NError e)) -> keeps Rerr (perform x).
Proof.
  intros Hx st. unfold Rerr. simpl. split; [|tauto].
  intros e [H|[]]. by eapply Hx.
Qed.

Lemma Rerr_query (c : conn) (sql : string) (k : cont) : keeps Rerr (query c sql k).
Proof.
  unfold query. apply keeps_andThen; [apply _ | |].
  - by apply Rerr_perform.
  - by apply Rerr_modify.
Qed.

Lemma Rerr_upd_run (rid : nat) (f : Run -> Run) :
  (forall r e, pAll (f r) = Rejected e -> pAll r = Rejected e) ->
  keeps Rerr (upd_run rid f).
Proof.
  intros Hf st. unfold Rerr. simpl. split; [tauto|].
  intros rid' e. destruct (decide (rid = rid')) as [->|Hne].
  - rewrite list_lookup_alter_eq.
    destruct (runs st !! rid') as [r|]; cbn [fmap option_fmap option_map]; [|tauto].
    intros [= H]. f_equal. by apply Hf.
  - by rewrite list_lookup_alter_ne.
Qed.

Lemma pAll_resolve_in (w : which) (r : Run) (e : JsError) :
  pAll (resolve_in w r) = Rejected e -> pAll r = Rejected e.
Proof.
  destruct r as [a ce p1 p2 pa]. unfold resolve_in.
  destruct w; simpl.
  - destruct p1; simpl; try done. destruct pa; simpl; try done.
    destruct p2 as [[]|]; simpl; done.
  - destruct p2 as [[]|]; simpl; try done. destruct pa; simpl; try done.
    destruct p1; simpl; done.
Qed.

Lemma Rerr_all_then : keeps Rerr all_then.
Proof.
  unfold all_then.
  repeat first
    [ simple eapply @keeps_andThen; [typeclasses eauto .. | | ]
    | simple eapply @keeps_read; [typeclasses eauto .. | intros []]
    | simple eapply @keeps_skip; typeclasses eauto
    | apply Rerr_perform; discriminate
    | apply Rerr_modify; intros []; reflexivity ].
Qed.

(** The reaction after code that rejects nothing, for a run that was not
    rejected before. *)
Lemma Rerr_then_react (rid : nat) (body : act) (st : State) :
  keeps Rerr body ->
  (forall e, pAll <$> runs st !! rid <> Some (Rejected e)) ->
  Rerr st (fst ((body >>> react rid) st)) (snd ((body >>> react rid) st)).
Proof.
  intros Hb Hn. unfold andThen. specialize (Hb st).
  destruct (body st) as [s1 o1]. simpl in Hb.
  assert (Hr : Rerr s1 (fst (react rid s1)) (snd (react rid s1))).
  { unfold react, with_run. destruct (runs s1 !! rid) as [r|] eqn:E; [|apply comp_refl].
    destruct (pAll r) as [| |e] eqn:Ep.
    - apply comp_refl.
    - apply Rerr_all_then.
    - exfalso. apply (Hn e). apply (proj2 Hb). by rewrite E, <- Ep. }
  destruct (react rid s1) as [s2 o2]. simpl in *. by eapply comp_trans.
Qed.

Lemma Rerr_reacting (rid : nat) (body : act) :
  keeps Rerr body -> keeps Rerr (reacting rid body).
Proof.
  intros Hb st. unfold reacting.
  destruct (pAll <$> runs st !! rid) as [[| |]|] eqn:E; try apply Hb.
  apply Rerr_then_react; [done|]. intros e. by rewrite E.
Qed.

#[local] Hint Resolve Rerr_query Rerr_all_then : keeps.
#[local] Hint Extern 1 (keeps Rerr (modify _)) =>
  apply Rerr_modify; intros []; reflexivity : keeps.
#[local] Hint Extern 1 (keeps Rerr (perform _)) =>
  apply Rerr_perform; discriminate : keeps.
#[local] Hint Extern 1 (keeps Rerr (upd_run _ (resolve_in _))) =>
  apply Rerr_upd_run; apply pAll_resolve_in : keeps.
#[local] Hint Extern 1 (keeps Rerr (upd_run _ (set_checksumEnabled _))) =>
  apply Rerr_upd_run; intros [] ?; simpl; done : keeps.

Lemma Rerr_start (o : StartArg) : keeps Rerr (start o).
Proof.
  unfold start. apply keeps_andThen; [apply _ | keeps_tac |].
  apply keeps_andThen; [apply _ | keeps_tac |].
  intros st. unfold read. apply Rerr_then_react.
  - apply keeps_andThen; [apply _ | | keeps_tac].
    intros s. unfold Rerr. simpl. split; [tauto|]. intros rid e.
    destruct (decide (rid < length (runs s))) as [Hlt|Hge].
    + by rewrite lookup_app_l.
    + rewrite lookup_app_r by lia.
      destruct (rid - length (runs s)) as [|n]; simpl; [done|].
      by destruct n.
  - intros e. rewrite (lookup_ge_None_2 (runs st)) by lia. done.
Qed.

Lemma Rerr_stop : keeps Rerr stop.
Proof. unfold stop. keeps_tac. Qed.

Lemma step_no_error (st : State) (i : input) :
  answers_ok i = true -> Rerr st (fst (step st i)) (snd (step st i)).
Proof.
  intros Hi. destruct i; cbn [step]; try discriminate;
    try (as_keeps; keeps_tac; fail).
  - as_keeps. apply Rerr_start.
  - as_keeps. apply Rerr_stop.
  - destruct res as [e|[|r rows]]; try discriminate.
    as_keeps. apply keeps_reply; [apply _|]. intros s k Hk.
    apply keeps_after_delete; [apply _ | |].
    + unfold Rerr. simpl. tauto.
    + destruct k; unfold run_cont; try apply Rerr_reacting; keeps_tac.
  - destruct (binlogStream st); [|apply comp_refl]. as_keeps. keeps_tac.
Qed.

Lemma run_no_error (st : State) (ins : list input) :
  Forall (fun i => answers_ok i = true) ins ->
  forall e, ~ In (Emit (NError e)) (snd (run st ins)).
Proof.
  intros H. apply (keeps_run Rerr _ step_no_error ins st H).
Qed.

(** ** Tail-position resolution *)

Lemma shows_app (l1 l2 : list cont) : shows (l1 ++ l2) = shows l1 + shows l2.
Proof. induction l1 as [|x l IH]; simpl; [done|]. rewrite IH. lia. Qed.

Lemma shows_delete (l : list cont) (i : nat) (k : cont) :
  l !! i = Some k -> shows l = shows (delete i l) + (if is_show k then 1 else 0).
Proof.
  revert i. induction l as [|x l IH]; intros [|i] H; simpl in *; try done.
  - injection H as ->. lia.
  - apply IH in H. lia.
Qed.

Lemma shows_zero_In (l : list cont) (rid : nat) :
  shows l = 0 -> ~ In (KShowBinaryLogs rid) l.
Proof.
  induction l as [|x l IH]; simpl; [tauto|].
  destruct x; simpl; intros H [H1|H1]; try discriminate; try lia; by apply IH.
Qed.

Lemma In_delete {A} (l : list A) (i : nat) (x : A) : In x (delete i l) -> In x l.
Proof.
  revert i. induction l as [|y l IH]; intros [|i]; simpl; try tauto.
  intros [H|H]; [by left | right; by eapply IH].
Qed.

(** *** The options only change through [start] and through the answer to
    [SHOW BINARY LOGS] *)

#[local] Instance Ropt_comp : Compositional Ropt.
Proof.
  split.
  - intros s. unfold Ropt. tauto.
  - intros s1 s2 s3 o1 o2 A B H. destruct (A H) as [A1 A2].
    destruct (B A2) as [B1 B2]. split; congruence.
Qed.

Lemma Ropt_modify (f : State -> State) :
  (forall st, options (f st) = options st /\ pending (f st) = pending st) ->
  keeps Ropt (modify f).
Proof.
  intros Hf st. destruct (Hf st) as [H1 H2]. unfold Ropt. simpl.
  rewrite H1, H2. tauto.
Qed.

Lemma Ropt_perform (x : action) : keeps Ropt (perform x).
Proof. intros st. unfold Ropt. simpl. tauto. Qed.

Lemma Ropt_query (c : conn) (sql : string) (k : cont) :
  is_show k = false -> keeps Ropt (query c sql k).
Proof.
  intros Hk st. unfold Ropt. simpl. rewrite shows_app. simpl. rewrite Hk.
  intros ->. done.
Qed.

Lemma Ropt_upd_run (rid : nat) (f : Run -> Run) : keeps Ropt (upd_run rid f).
Proof. by apply Ropt_modify. Qed.

#[local] Hint Resolve Ropt_upd_run Ropt_perform : keeps.
#[local] Hint Extern 1 (keeps Ropt (modify _)) =>
  apply Ropt_modify; intros []; split; reflexivity : keeps.
#[local] Hint Extern 1 (keeps Ropt (query _ _ _)) =>
  apply Ropt_query; reflexivity : keeps.

Lemma Ropt_all_then : keeps Ropt all_then.
Proof. unfold all_then. keeps_tac. Qed.

#[local] Hint Extern 1 (keeps Ropt (react _)) =>
  apply keeps_react; [apply _ | apply Ropt_all_then | intros ?; apply Ropt_perform]
  : keeps.

Lemma step_options (st : State) (i : input) :
  is_start i = false -> Ropt st (fst (step st i)) (snd (step st i)).
Proof.
  intros Hi. destruct i; cbn [step]; try discriminate;
    try (as_keeps; unfold stop; keeps_tac; fail).
  - as_keeps. apply keeps_reply; [apply _|]. intros s k Hk.
    pose proof (shows_delete _ _ _ Hk) as Hd.
    destruct (is_show k) eqn:Ek.
    + intros r Hz. lia.
    + apply keeps_after_delete; [apply _ | |].
      * unfold Ropt. simpl. intros Hz. split; [done | lia].
      * destruct k; try discriminate; keeps_tac.
  - destruct (binlogStream st); [|apply comp_refl]. as_keeps. keeps_tac.
Qed.

Lemma run_options (st : State) (ins : list input) :
  Forall (fun i => is_start i = false) ins ->
  shows (pending st) = 0 ->
  options (fst (run st ins)) = options st.
Proof.
  intros H Hz. by apply (keeps_run Ropt _ step_options ins st H).
Qed.

(** *** Fields that a piece of code leaves alone *)

#[local] Instance Rframe_comp {A} (proj : State -> A) : Compositional (Rframe proj).
Proof. split; unfold Rframe; congruence. Qed.

Lemma Rframe_modify {A} (proj : State -> A) (f : State -> State) :
  (forall st, proj (f st) = proj st) -> keeps (Rframe proj) (modify f).
Proof. intros Hf st. apply Hf. Qed.

Lemma Rframe_perform {A} (proj : State -> A) (x : action) :
  keeps (Rframe proj) (perform x).
Proof. by intros st. Qed.

#[local] Hint Resolve Rframe_perform : keeps.
#[local] Hint Extern 1 (keeps (Rframe _) (modify _)) =>
  apply Rframe_modify; intros []; reflexivity : keeps.
#[local] Hint Extern 1 (keeps (Rframe _) (upd_run _ _)) =>
  apply Rframe_modify; intros []; reflexivity : keeps.
#[local] Hint Extern 1 (keeps (Rframe _) (query _ _ _)) =>
  unfold query; apply keeps_andThen;
    [apply _ | apply Rframe_perform | apply Rframe_modify; intros []; reflexivity]
  : keeps.
#[local] Hint Extern 1 (keeps (Rframe _) all_then) =>
  unfold all_then; keeps_tac : keeps.
#[local] Hint Extern 1 (keeps (Rframe _) (react _)) =>
  apply keeps_react;
    [apply _ | unfold all_then; keeps_tac | intros ?; apply Rframe_perform]
  : keeps.

(** *** A session that was started once *)

#[local] Instance Rok_comp (o : StartArg) : Compositional (Rok o).
Proof. split; unfold Rok; auto. Qed.

Lemma Rok_modify (o : StartArg) (f : State -> State) :
  (forall st, runs (f st) = runs st /\ ready (f st) = ready st) ->
  keeps (Rok o) (modify f).
Proof.
  intros Hf st. destruct (Hf st) as (H1 & H2).
  unfold Rok, run_ok. simpl. by rewrite H1, H2.
Qed.

Lemma Rok_perform (o : StartArg) (x : action) : keeps (Rok o) (perform x).
Proof. intros st. unfold Rok. simpl. tauto. Qed.

Lemma Rok_query (o : StartArg) (c : conn) (sql : string) (k : cont) :
  keeps (Rok o) (query c sql k).
Proof.
  unfold query. apply keeps_andThen; [apply _ | apply Rok_perform |].
  by apply Rok_modify.
Qed.

Lemma Rok_upd_run (o : StartArg) (rid : nat) (f : Run -> Run) :
  sound f -> keeps (Rok o) (upd_run rid f).
Proof.
  intros Hf st (r & H1 & H2 & H3 & H4).
  destruct (Hf r) as (F1 & F2 & F3).
  unfold upd_run, modify, run_ok. simpl. rewrite H1. destruct rid as [|rid]; simpl.
  - exists (f r). rewrite F1. repeat split; auto.
  - by exists r.
Qed.

Lemma sound_set_checksumEnabled (b : bool) : sound (set_checksumEnabled b).
Proof. intros []. simpl. tauto. Qed.

Lemma sound_resolve_in (w : which) : sound (resolve_in w).
Proof.
  intros [a ce p1 p2 pa]. unfold resolve_in, all_resolved.
  destruct w, p1, pa, p2 as [[]|]; simpl; intuition discriminate.
Qed.

Lemma sound_reject_in (w : which) (e : JsError) : sound (reject_in w e).
Proof.
  intros [a ce p1 p2 pa]. unfold reject_in, all_resolved.
  destruct w, p1, pa, p2 as [[]|]; simpl; intuition discriminate.
Qed.

Lemma Rok_react (o : StartArg) (rid : nat) : keeps (Rok o) (react rid).
Proof.
  intros st (r & H1 & H2 & H3 & H4).
  unfold react, with_run. rewrite H1.
  destruct rid as [|rid]; simpl; [|by exists r].
  destruct st as [? ? ? ? s ? ? ? ? h ? ? ?].
  unfold all_then, all_catch, andThen, read, perform, modify, emit, skip, perform.
  simpl in *.
  destruct (pAll r) eqn:Ep; simpl; try destruct s; try destruct h; simpl;
    exists r; simpl; do 2 (split; [done|]);
    (split; [first [intros; congruence | auto]|]); auto.
Qed.

#[local] Hint Resolve Rok_perform Rok_react Rok_query : keeps.
#[local] Hint Extern 1 (keeps (Rok _) (modify _)) =>
  apply Rok_modify; intros []; split; reflexivity : keeps.
#[local] Hint Extern 1 (keeps (Rok _) (upd_run _ _)) =>
  apply Rok_upd_run;
    first [apply sound_set_checksumEnabled | apply sound_resolve_in
          | apply sound_reject_in] : keeps.

Lemma step_ok (o : StartArg) (st : State) (i : input) :
  is_start i = false -> Rok o st (fst (step st i)) (snd (step st i)).
Proof.
  intros Hi. destruct i; cbn [step]; try discriminate;
    try (as_keeps; unfold stop; keeps_tac; fail).
  - as_keeps. apply keeps_reply; [apply _|]. intros s k Hk.
    apply keeps_after_delete; [apply _ | |].
    + unfold Rok, run_ok. simpl. tauto.
    + destruct k; keeps_tac.
  - destruct (binlogStream st); [|apply comp_refl]. as_keeps. keeps_tac.
Qed.

#[local] Instance Rawait_comp (o : StartArg) : Compositional (Rawait o).
Proof. split; unfold Rawait; auto. Qed.

Lemma Rawait_modify (o : StartArg) (f : State -> State) :
  (forall st, runs (f st) = runs st /\ pending (f st) = pending st /\
              options (f st) = options st) ->
  keeps (Rawait o) (modify f).
Proof.
  intros Hf st. destruct (Hf st) as (H1 & H2 & H3).
  unfold Rawait, awaiting. simpl. by rewrite H1, H2, H3.
Qed.

Lemma Rawait_perform (o : StartArg) (x : action) : keeps (Rawait o) (perform x).
Proof. intros st. unfold Rawait. simpl. tauto. Qed.

Lemma Rawait_query (o : StartArg) (c : conn) (sql : string) (k : cont) :
  is_show k = false -> keeps (Rawait o) (query c sql k).
Proof.
  intros Hk st [H1 H2]. split; simpl.
  - rewrite shows_app. simpl. rewrite Hk. lia.
  - intros rid Hin. apply in_app_iff in Hin as [Hin|[Hin|[]]];
      [by apply H2 | by subst k].
Qed.

Lemma Rawait_upd_run (o : StartArg) (rid : nat) (f : Run -> Run) :
  (forall r, pBinlogEnd (f r) = pBinlogEnd r) -> keeps (Rawait o) (upd_run rid f).
Proof.
  intros Hf st [H1 H2]. split; [done|]. simpl. intros rid' Hin.
  destruct (H2 rid' Hin) as (-> & Hp & Ho). split; [done|].
  split; [|done]. destruct rid as [|rid].
  - rewrite list_lookup_alter_eq. destruct (runs st !! 0) as [r|]; [|done].
    simpl in *. by rewrite Hf.
  - by rewrite list_lookup_alter_ne.
Qed.

Lemma pBinlogEnd_resolve_checksum (r : Run) :
  pBinlogEnd (resolve_in PChecksum r) = pBinlogEnd r.
Proof.
  destruct r as [a ce p1 p2 pa]. unfold resolve_in. simpl.
  destruct p1; simpl; try done. destruct pa; simpl; try done.
  by destruct (all_resolved _).
Qed.

Lemma pBinlogEnd_reject_checksum (e : JsError) (r : Run) :
  pBinlogEnd (reject_in PChecksum e r) = pBinlogEnd r.
Proof.
  destruct r as [a ce p1 p2 pa]. unfold reject_in. simpl.
  destruct p1; simpl; try done. by destruct pa.
Qed.

#[local] Hint Resolve Rawait_perform : keeps.
#[local] Hint Extern 1 (keeps (Rawait _) (modify _)) =>
  apply Rawait_modify; intros []; repeat split; reflexivity : keeps.
#[local] Hint Extern 1 (keeps (Rawait _) (query _ _ _)) =>
  apply Rawait_query; reflexivity : keeps.
#[local] Hint Extern 1 (keeps (Rawait _) (upd_run _ _)) =>
  apply Rawait_upd_run;
    first [intros []; reflexivity | apply pBinlogEnd_resolve_checksum
          | apply pBinlogEnd_reject_checksum] : keeps.
#[local] Hint Extern 1 (keeps (Rawait _) (react _)) =>
  apply keeps_react;
    [apply _ | unfold all_then; keeps_tac | intros ?; apply Rawait_perform]
  : keeps.

Lemma frame_after {A} (proj : State -> A) (a tail : act) (st : State) :
  keeps (Rframe proj) tail ->
  proj (fst ((a >>> tail) st)) = proj (fst (a st)).
Proof.
  intros Ht. unfold andThen. destruct (a st) as [s1 o1].
  specialize (Ht s1). destruct (tail s1) as [s2 o2]. exact Ht.
Qed.

Lemma frame_reacting {A} (proj : State -> A) (rid : nat) (body : act) (st : State) :
  keeps (Rframe proj) (react rid) ->
  proj (fst (reacting rid body st)) = proj (fst (body st)).
Proof.
  intros Hr. unfold reacting.
  destruct (pAll <$> runs st !! rid) as [[| |]|]; try done.
  by apply frame_after.
Qed.

(** The answer to [SHOW BINARY LOGS], in a session started once. *)
Lemma show_reply_single_run (o : StartArg) (st : State) (i rid : nat)
    (res : QueryResult) :
  single_run o st ->
  pending st !! i = Some (KShowBinaryLogs rid) ->
  let st' := fst (step st (Reply i res)) in
  single_run o st' /\ shows (pending st') = 0 /\ ready st = false /\
  options st = arg_options o /\
  forall rows, res = QRows rows ->
    options st' = resolved_options (arg_options o) (options st) rows.
Proof.
  intros [Hok [Hle Haw]] Hk st'.
  pose proof (shows_delete _ _ _ Hk) as Hd. simpl in Hd.
  destruct (Haw rid) as (-> & Hp & Ho).
  { eapply list_elem_of_In, list_elem_of_lookup_2, Hk. }
  assert (Hz : shows (delete i (pending st)) = 0) by lia.
  assert (Hpd : pending st' = delete i (pending st)).
  { subst st'. rewrite (reply_at _ _ _ _ Hk).
    assert (Hf : keeps (Rframe pending) (run_cont (KShowBinaryLogs 0) res))
      by keeps_tac.
    apply (Hf (set_pending (delete i (pending st)) st)). }
  assert (Hok' : run_ok o st') by (by apply (step_ok o st (Reply i res))).
  destruct Hok as (r & H1 & H2 & H3 & H4).
  rewrite H1 in Hp. simpl in Hp. injection Hp as Hp.
  split; [|split; [|split; [|split]]].
  - split; [done|]. unfold awaiting. rewrite Hpd. split; [lia|].
    intros rid' Hin. by apply shows_zero_In in Hin.
  - by rewrite Hpd.
  - destruct (ready st); [|done]. specialize (H4 eq_refl).
    unfold all_resolved in H4. rewrite Hp in H4. simpl in H4.
    by rewrite andb_false_r in H4.
  - done.
  - intros rows ->. subst st'. rewrite (reply_at _ _ _ _ Hk).
    unfold run_cont, on_show_binary_logs, findBinlogEnd_next.
    rewrite frame_reacting by keeps_tac.
    rewrite frame_after by keeps_tac.
    unfold resolved_options. destruct (last rows) as [row|]; [|done].
    unfold with_run. simpl. rewrite H1. simpl. by rewrite H2.
Qed.

Lemma step_single_run (o : StartArg) (st : State) (i : input) :
  is_start i = false ->
  single_run o st -> single_run o (fst (step st i)).
Proof.
  intros Hi Hs.
  assert (Hdef : (exists j res rid, i = Reply j res /\
                    pending st !! j = Some (KShowBinaryLogs rid)) \/
                 (forall j res, i = Reply j res ->
                    forall k, pending st !! j = Some k -> is_show k = false)).
  { destruct i as [| | | | |j res| | |]; try (right; intros; discriminate).
    destruct (pending st !! j) as [k|] eqn:E;
      [|right; intros ? ? [= <- <-] k' Hk'; congruence].
    destruct k;
      try (right; intros ? ? [= <- <-] k' Hk'; rewrite E in Hk';
           by injection Hk' as <-).
    left. eauto. }
  destruct Hdef as [(j & res & rid & -> & Hk)|Hns].
  { by apply (show_reply_single_run o st j rid res). }
  destruct Hs as [Hok Haw]. split; [by apply step_ok|].
  revert Haw. change (Rawait o st (fst (step st i)) (snd (step st i))).
  clear Hok. destruct i; cbn [step]; try discriminate;
    try (clear Hns Hi; as_keeps; unfold stop; keeps_tac; fail).
  - specialize (Hns _ _ eq_refl). revert Hns. unfold reply.
    destruct (pending st !! i) as [k|] eqn:Hk; [|intros; apply comp_refl].
    intros Hns. specialize (Hns k eq_refl).
    pose proof (shows_delete _ _ _ Hk) as Hd. rewrite Hns in Hd.
    assert (Hk' : keeps (Rawait o) (run_cont k res))
      by (destruct k; try discriminate; keeps_tac).
    pose proof (keeps_after_delete (Rawait o) i k res st) as Ha.
    unfold andThen, modify. simpl in *.
    destruct (run_cont k res _) as [s2 o2]. apply Ha; [|done].
    intros [A1 A2]. split; simpl; [lia|].
    intros rid Hin. apply A2. by eapply In_delete.
  - clear Hns Hi. destruct (binlogStream st); [|apply comp_refl].
    as_keeps. keeps_tac.
Qed.

Lemma run_single_run (o : StartArg) (ins : list input) (st : State) :
  Forall (fun i => is_start i = false) ins ->
  single_run o st -> single_run o (fst (run st ins)).
Proof.
  revert st. induction ins as [|i ins IH]; intros st H Hs; simpl; [done|].
  inversion H as [|? ? Hi Hins]; subst.
  pose proof (step_single_run o st i Hi Hs) as H1.
  destruct (step st i) as [s1 o1]. specialize (IH s1 Hins H1).
  by destruct (run s1 ins).
Qed.

Lemma single_run_after_start (h : bool) (o : StartArg) :
  single_run o (fst (step (ZongJi_new h) (Start o))).
Proof.
  rewrite step_start_live by done. simpl.
  destruct (truthy (startAtEnd (arg_options o))); split.
  - eexists. simpl. repeat split; done.
  - split; simpl; [lia|]. intros rid [H|[H|[]]]; [discriminate|].
    injection H as <-. done.
  - eexists. simpl. repeat split; done.
  - split; simpl; [lia|]. intros rid [H|[]]. discriminate.
Qed.

(** ** Lifecycle *)

Lemma stopped_after_stop (st : State) : stopped (fst (step st Stop)) = true.
Proof. destruct st as [? ? ? ? s ? ? ? ? ? ? ? ?]. by destruct s. Qed.

Lemma stop_when_stopped (st : State) : stopped st = true -> step st Stop = (st, []).
Proof. intros H. cbn [step]. unfold stop, read. by rewrite H. Qed.

Lemma stop_when_live (st : State) :
  stopped st = false ->
  step st Stop =
  (set_pending (pending st ++ [KKill]) (set_stopped true st),
   [Destroy Stream; Query Ctrl (kill_sql (threadId st))]).
Proof. intros H. cbn [step]. unfold stop, read. by rewrite H. Qed.

Lemma kill_reply (st : State) (i : nat) (res : QueryResult) :
  pending st !! i = Some KKill ->
  notifications (snd (step st (Reply i res))) = [NStopped].
Proof.
  intros H. rewrite (reply_at _ _ _ _ H). unfold run_cont, on_kill, andThen, read.
  simpl. by destruct (ctrlConnectionOwner st).
Qed.

Lemma stopped_after_run (st : State) (ins : list input) :
  stopped st = true -> stopped (fst (run st ins)) = true.
Proof. apply run_flags. Qed.

Lemma stopped_run_through_stop (st : State) (a b : list input) :
  stopped (fst (run st (a ++ Stop :: b))) = true.
Proof.
  rewrite run_app. destruct (run st a) as [s1 o1]. cbn [run].
  pose proof (stopped_after_stop s1) as H1. destruct (step s1 Stop) as [s2 o2].
  pose proof (stopped_after_run s2 b H1) as H2. by destruct (run s2 b).
Qed.

(** C7: a second [stop()], in any state reached after a first one, does
    nothing: no action, no notification, no change of the session.  Over the
    whole run at most one ['stopped'] is emitted, and exactly one once the
    control connection has answered the [KILL] query. *)
Theorem stop_idempotent (h : bool) (ins1 ins2 ins3 : list input) :
  let s1 := fst (run (ZongJi_new h) (ins1 ++ [Stop])) in
  let s2 := fst (run s1 ins2) in
  let r := run (ZongJi_new h) (ins1 ++ Stop :: ins2 ++ Stop :: ins3) in
  step s2 Stop = (s2, []) /\
  count_stopped (snd r) <= 1 /\
  (~ In KKill (pending (fst r)) -> count_stopped (snd r) = 1).
Proof.
  intros s1 s2 r. split; [|split].
  - apply stop_when_stopped. apply stopped_after_run.
    apply stopped_run_through_stop.
  - apply stopped_at_most_once.
  - apply stopped_at_most_once. apply stopped_run_through_stop.
Qed.

Lemma stop_idempotent_witness :
  let r := run (ZongJi_new true)
             ([Start empty_arg] ++ Stop :: [Reply 1 (QRows [])] ++ Stop :: []) in
  count_stopped (snd r) = 1.
Proof.
  intros r.
  apply (stop_idempotent true [Start empty_arg] [Reply 1 (QRows [])] []).
  vm_compute. intros [H|[]]. discriminate.
Defined.

(** C1 does not hold as stated: [stop()] arrives while the checksum query
    is in flight; the query is answered, the statement that follows it on the
    destroyed stream connection fails, and the failure is emitted as an
    ['error']. *)
Lemma stop_during_negotiation_surfaces_error :
  let closed :=
    MkError "Error" "Can't add new command when connection is in closed state" in
  let crc : row := {[ "checksum" := VStr "CRC32" ]} in
  let pre := [Start empty_arg] in
  let post := [Reply 0 (QRows [crc]); Reply 1 (QErr closed); Reply 0 (QRows [])] in
  ready (fst (run (ZongJi_new true) pre)) = false /\
  pending (fst (run (ZongJi_new true) pre)) = [KSelectChecksum 0] /\
  notifications (snd (run (ZongJi_new true) (pre ++ Stop :: post))) =
    [NError closed; NStopped].
Proof. vm_compute. repeat split. Qed.

(** C1, amended: [stop()] is called while ['ready'] has not been signaled.
    Then ['ready'] is never signaled; [stop] destroys the stream connection
    and sends [KILL], whose callback emits ['stopped'] whatever the answer,
    so ['stopped'] is emitted at most once and exactly once when that
    callback has run; and no ['error'] is emitted from the [stop] on as long
    as every query is answered with rows and no connection raises an error (a
    query that fails after the [stop] is still reported). *)
Theorem stop_during_negotiation (h : bool) (pre post : list input) :
  let s0 := fst (run (ZongJi_new h) pre) in
  ready s0 = false ->
  let r := run (ZongJi_new h) (pre ++ Stop :: post) in
  ~ In (Emit NReady) (snd r) /\
  (stopped s0 = false ->
     step s0 Stop =
     (set_pending (pending s0 ++ [KKill]) (set_stopped true s0),
      [Destroy Stream; Query Ctrl (kill_sql (threadId s0))])) /\
  (forall st i res, pending st !! i = Some KKill ->
     notifications (snd (step st (Reply i res))) = [NStopped]) /\
  count_stopped (snd r) <= 1 /\
  (~ In KKill (pending (fst r)) -> count_stopped (snd r) = 1) /\
  (Forall (fun i => answers_ok i = true) post ->
   forall e, ~ In (Emit (NError e)) (snd (run s0 (Stop :: post)))).
Proof.
  intros s0 Hr r.
  split; [|split; [|split; [|split; [|split]]]].
  - subst r. rewrite run_app.
    pose proof (run_flags (ZongJi_new h) pre) as (_ & _ & F3 & _).
    fold s0 in F3. subst s0.
    destruct (run (ZongJi_new h) pre) as [s0 o0]. cbn [fst snd run] in *.
    rewrite Hr in F3.
    pose proof (stopped_after_stop s0) as Hs.
    pose proof (step_flags s0 Stop) as (_ & _ & G3 & G4).
    destruct (stopped s0) eqn:E.
    + rewrite (stop_when_stopped s0 E) in *. cbn [fst snd] in *.
      pose proof (run_flags s0 post) as (_ & _ & K3 & _).
      destruct (run s0 post) as [s2 o2]. cbn [fst snd] in *.
      rewrite !in_app_iff. intros [H|[[]|H]].
      * apply F3 in H. destruct H; congruence.
      * apply K3 in H. destruct H; congruence.
    + rewrite (stop_when_live s0 E) in *. cbn [fst snd] in *.
      pose proof (run_flags (set_pending (pending s0 ++ [KKill]) (set_stopped true s0))
                    post) as (_ & _ & K3 & _).
      destruct (run _ post) as [s2 o2]. cbn [fst snd] in *.
      rewrite !in_app_iff. intros [H|[H|H]].
      * apply F3 in H. destruct H; congruence.
      * destruct H as [H|[H|[]]]; discriminate.
      * apply K3 in H. destruct H. destruct s0; discriminate.
  - apply stop_when_live.
  - apply kill_reply.
  - apply stopped_at_most_once.
  - apply stopped_at_most_once. apply stopped_run_through_stop.
  - intros Hp. apply run_no_error. by constructor.
Qed.

Lemma stop_during_negotiation_witness :
  let crc : row := {[ "checksum" := VStr "CRC32" ]} in
  let pre := [Start empty_arg] in
  let post := [Reply 0 (QRows [crc]); Reply 1 (QRows [crc]); Reply 0 (QRows [crc])] in
  let r := run (ZongJi_new true) (pre ++ Stop :: post) in
  ~ In (Emit NReady) (snd r) /\ count_stopped (snd r) = 1 /\
  forall e, ~ In (Emit (NError e))
              (snd (run (fst (run (ZongJi_new true) pre)) (Stop :: post))).
Proof.
  intros crc pre post r.
  destruct (stop_during_negotiation true pre post eq_refl)
    as (H1 & _ & _ & _ & H5 & H6).
  split; [exact H1|]. split.
  - apply H5. vm_compute. tauto.
  - apply H6. repeat constructor.
Defined.

(** ** The stopped guard of the two start operations *)

Lemma show_reply_options (st : State) (i rid : nat) (run : Run) (rows : list row) :
  pending st !! i = Some (KShowBinaryLogs rid) ->
  runs st !! rid = Some run ->
  options (fst (step st (Reply i (QRows rows)))) =
  resolved_options (arg_options (run_arg run)) (options st) rows.
Proof.
  intros Hk Hr. rewrite (reply_at _ _ _ _ Hk).
  unfold run_cont, on_show_binary_logs, findBinlogEnd_next.
  rewrite frame_reacting by keeps_tac.
  rewrite frame_after by keeps_tac.
  unfold resolved_options. destruct (last rows) as [row|]; [|done].
  unfold with_run. cbn [runs set_pending]. by rewrite Hr.
Qed.

Lemma after_then_reply_useChecksum (st : State) (i rid : nat) (run : Run)
    (rows : list row) :
  pending st !! i = Some (KAfterThen rid) ->
  runs st !! rid = Some run ->
  useChecksum (fst (step st (Reply i (QRows rows)))) = checksumEnabled run.
Proof.
  intros Hk Hr. rewrite (reply_at _ _ _ _ Hk).
  unfold run_cont, on_after_then, final_then, testChecksum_next.
  rewrite frame_reacting by keeps_tac.
  unfold with_run. cbn [runs set_pending]. rewrite Hr.
  by rewrite frame_after by keeps_tac.
Qed.

(** C2 does not hold as stated: the session is stopped while
    [SHOW BINARY LOGS] is in flight, and the answer still rewrites
    [filename] and [position]. *)
Lemma stopped_guard_not_rechecked :
  let o := MkStartArg
             (MkOptions (VNum 7) (VStr "caller.000001") (VNum 4) (VBool true))
             no_filters in
  let lg : row := <["Log_name" := VStr "log.000005"]> {[ "File_size" := VNum 1540 ]} in
  let s := fst (run (ZongJi_new true) [Start o; Stop]) in
  let s' := fst (step s (Reply 1 (QRows [lg]))) in
  stopped s = true /\ pending s !! 1 = Some (KShowBinaryLogs 0) /\
  filename (options s) = VStr "caller.000001" /\ position (options s) = VNum 4 /\
  filename (options s') = VStr "log.000005" /\ position (options s') = VNum 1540.
Proof. vm_compute. repeat split. Qed.

(** C2, amended: each of the two start operations tests [stopped] once,
    before it sends its query: [start] on a stopped session sends nothing,
    resolves at once and changes neither [ready] nor the waiting callbacks.
    When the query returns there is no second test: whether or not the
    session has been stopped meanwhile, the answer to [SHOW BINARY LOGS]
    rewrites [filename] and [position] from the last row, and the answer to
    the statement on the stream connection stores the negotiated flag in
    [useChecksum].  Only the transition to streaming is guarded: a stopped
    session never emits ['ready']. *)
Theorem stopped_guard_at_launch_only (st : State) :
  (forall o, stopped st = true ->
     snd (step st (Start o)) = [InitBinlogClass] /\
     pending (fst (step st (Start o))) = pending st /\
     ready (fst (step st (Start o))) = ready st /\
     options (fst (step st (Start o))) = arg_options o) /\
  (forall i rid run rows row,
     pending st !! i = Some (KShowBinaryLogs rid) ->
     runs st !! rid = Some run -> last rows = Some row ->
     options (fst (step st (Reply i (QRows rows)))) =
     MkOptions (serverId (arg_options (run_arg run))) (field "Log_name" row)
       (field "File_size" row) (startAtEnd (arg_options (run_arg run)))) /\
  (forall i rid run rows,
     pending st !! i = Some (KAfterThen rid) ->
     runs st !! rid = Some run ->
     useChecksum (fst (step st (Reply i (QRows rows)))) = checksumEnabled run) /\
  (forall i, stopped st = true -> ~ In (Emit NReady) (snd (step st i))).
Proof.
  split; [|split; [|split]].
  - intros o Hs. rewrite step_start_stopped by done. by destruct st.
  - intros i rid run rows row Hk Hr Hl.
    rewrite (show_reply_options st i rid run rows Hk Hr).
    unfold resolved_options. by rewrite Hl.
  - apply after_then_reply_useChecksum.
  - intros i Hs Hin. apply step_flags in Hin. destruct Hin. congruence.
Qed.

Lemma stopped_guard_at_launch_only_witness :
  let o := MkStartArg
             (MkOptions (VNum 7) (VStr "caller.000001") (VNum 4) (VBool true))
             no_filters in
  let lg : row := <["Log_name" := VStr "log.000005"]> {[ "File_size" := VNum 1540 ]} in
  let s := fst (run (ZongJi_new true) [Start o; Stop]) in
  options (fst (step s (Reply 1 (QRows [lg])))) =
  MkOptions (VNum 7) (VStr "log.000005") (VNum 1540) (VBool true).
Proof.
  intros o lg s.
  apply (proj1 (proj2 (stopped_guard_at_launch_only s)) 1 0
           (MkRun o true Pending (Some Pending) Pending) [lg] lg);
    reflexivity.
Defined.

(** ** Starting at the end of the log *)

(** C8: a new session is started once with [startAtEnd] set, and the
    control connection answers [SHOW BINARY LOGS] with [rows].  Until then
    ['ready'] has not been emitted and the options are those of the caller.
    With a non-empty answer, [filename] and [position] become [Log_name] and
    [File_size] of the last row; with an empty answer [_findBinlogEnd] passes
    [null] on and the options stay as they are.  Nothing but another
    [start] changes them afterwards. *)
Theorem startAtEnd_overrides (h : bool) (o : StartArg) (pre post : list input)
    (i rid : nat) (rows : list row) :
  truthy (startAtEnd (arg_options o)) = true ->
  Forall (fun x => is_start x = false) pre ->
  Forall (fun x => is_start x = false) post ->
  let r1 := run (ZongJi_new h) (Start o :: pre) in
  pending (fst r1) !! i = Some (KShowBinaryLogs rid) ->
  let s2 := fst (step (fst r1) (Reply i (QRows rows))) in
  let s3 := fst (run s2 post) in
  snd (step (ZongJi_new h) (Start o)) =
    [Query Ctrl SelectChecksumParamSql; Query Ctrl "SHOW BINARY LOGS"] /\
  (forall next, on_show_binary_logs next (QRows rows) = next None (last rows)) /\
  ~ In (Emit NReady) (snd r1) /\
  options (fst r1) = arg_options o /\
  options s2 =
    match last rows with
    | Some row =>
        MkOptions (serverId (arg_options o)) (field "Log_name" row)
          (field "File_size" row) (startAtEnd (arg_options o))
    | None => arg_options o
    end /\
  options s3 = options s2.
Proof.
  intros Ht Hpre Hpost r1 Hk s2 s3.
  assert (Hs1 : single_run o (fst r1)).
  { subst r1. cbn [run].
    pose proof (single_run_after_start h o) as H0.
    destruct (step (ZongJi_new h) (Start o)) as [s0 o0].
    pose proof (run_single_run o pre s0 Hpre H0) as H1.
    by destruct (run s0 pre). }
  destruct (show_reply_single_run o (fst r1) i rid (QRows rows) Hs1 Hk)
    as (Hs2 & Hz & Hr & Ho & Hopt).
  split; [|split; [|split; [|split; [|split]]]].
  - rewrite step_start_live by done. cbn [snd]. by rewrite Ht.
  - done.
  - intros Hin. apply (run_flags (ZongJi_new h) (Start o :: pre)) in Hin.
    fold r1 in Hin. destruct Hin. congruence.
  - done.
  - fold s2 in Hopt. rewrite (Hopt rows eq_refl). unfold resolved_options.
    rewrite Ho. by destruct (last rows).
  - subst s3. by apply run_options.
Qed.

Lemma startAtEnd_overrides_witness :
  let o := MkStartArg
             (MkOptions (VNum 7) (VStr "caller.000001") (VNum 4) (VBool true))
             no_filters in
  let crc : row := {[ "checksum" := VStr "CRC32" ]} in
  let lg : row := <["Log_name" := VStr "log.000005"]> {[ "File_size" := VNum 1540 ]} in
  let r1 := run (ZongJi_new true) [Start o; Reply 0 (QRows [crc])] in
  let s2 := fst (step (fst r1) (Reply 0 (QRows [lg]))) in
  let r3 := run s2 [Reply 0 (QRows [])] in
  ~ In (Emit NReady) (snd r1) /\
  options (fst r3) = MkOptions (VNum 7) (VStr "log.000005") (VNum 1540) (VBool true) /\
  notifications (snd r3) = [NReady].
Proof.
  intros o crc lg r1 s2 r3.
  destruct (startAtEnd_overrides true o [Reply 0 (QRows [crc])] [Reply 0 (QRows [])]
              0 0 [lg])
    as (_ & _ & H3 & _ & H5 & H6).
  - reflexivity.
  - repeat constructor.
  - repeat constructor.
  - reflexivity.
  - split; [exact H3|]. split; [|reflexivity].
    fold r1 in H5, H6. fold s2 in H5, H6. fold r3 in H6.
    etransitivity; [exact H6|]. exact H5.
Defined.

(** * Further properties *)

(** ** Reading the configuration *)

Lemma get_names_fold (names : list string) (o : Options) (acc : gmap string Member)
    (n : string) :
  let obj := fold_left (assign_name o) names acc in
  (In n names -> n <> "__proto__" -> obj !! n = Some (option_field n o)) /\
  (~ In n names \/ n = "__proto__" -> obj !! n = acc !! n).
Proof.
  revert acc. induction names as [|x names IH]; intros acc; simpl.
  - tauto.
  - destruct (IH (assign_name o acc x)) as [IH1 IH2]. split.
    + intros [->|Hin] Hn.
      * destruct (in_dec string_dec n names) as [Hin|Hin]; [by apply IH1|].
        rewrite IH2 by tauto. unfold assign_name.
        apply String.eqb_neq in Hn. rewrite Hn. apply lookup_insert_eq.
      * by apply IH1.
    + intros Hn. rewrite IH2 by tauto. unfold assign_name.
      destruct (String.eqb x "__proto__") eqn:E; [done|].
      apply String.eqb_neq in E. apply lookup_insert_ne.
      destruct Hn as [Hn|Hn]; [tauto | congruence].
Qed.

(** X1: [get] with an array of names returns an object that holds exactly
    the names of the array other than [__proto__], each with what [get] with
    that name alone returns: the option of that name, the member of
    [Object.prototype] of that name, and [undefined] for any other name.
    The name [__proto__] creates no property. *)
Theorem get_names_spec (st : State) (names : list string) (n : string) :
  exists obj, get (GNames names) st = GObject obj /\
    (In n names -> n <> "__proto__" ->
     exists v, get (GName n) st = GValue v /\ obj !! n = Some v) /\
    (~ In n names -> obj !! n = None) /\
    obj !! "__proto__" = None /\
    (In n names ->
     n <> "serverId" -> n <> "filename" -> n <> "position" -> n <> "startAtEnd" ->
     match proto_member n with
     | None => obj !! n = Some (MValue VUndefined)
     | Some m => n <> "__proto__" -> obj !! n = Some (MProto m)
     end).
Proof.
  exists (get_names names (options st)). split; [done|].
  destruct (get_names_fold names (options st) ∅ n) as [H1 H2].
  destruct (get_names_fold names (options st) ∅ "__proto__") as [_ H3].
  unfold get_names. split; [|split; [|split]].
  - intros Hin Hn. eexists. split; [reflexivity | by apply H1].
  - intros Hn. rewrite H2 by tauto. apply lookup_empty.
  - rewrite H3 by tauto. apply lookup_empty.
  - intros Hin N1 N2 N3 N4.
    assert (E : option_field n (options st) =
                match proto_member n with
                | Some m => MProto m
                | None => MValue VUndefined
                end).
    { unfold option_field. apply String.eqb_neq in N1, N2, N3, N4.
      by rewrite N1, N2, N3, N4. }
    destruct (proto_member n) as [m|] eqn:Em.
    + intros Hn. rewrite H1 by done. by rewrite E.
    + assert (Hn : n <> "__proto__") by (by intros ->).
      rewrite H1 by done. by rewrite E.
Qed.

Lemma get_names_spec_witness :
  let st := fst (step (ZongJi_new true)
                   (Start (MkStartArg (MkOptions (VNum 7) (VStr "log.000001") (VNum 4)
                                         VUndefined) no_filters))) in
  exists obj, get (GNames ["filename"; "port"; "constructor"; "__proto__"]) st =
              GObject obj /\
    obj !! "filename" = Some (MValue (VStr "log.000001")) /\
    obj !! "port" = Some (MValue VUndefined) /\
    obj !! "constructor" = Some (MProto PConstructor) /\
    obj !! "__proto__" = None /\ obj !! "position" = None.
Proof.
  intros st.
  destruct (get_names_spec st ["filename"; "port"; "constructor"; "__proto__"]
              "filename") as (obj & Ho & H1 & _).
  exists obj. split; [exact Ho|].
  injection Ho as <-. vm_compute. repeat split.
Defined.

(** X2: [start] replaces the configuration as a whole: whatever the
    session held before, its options and filters are afterwards those of the
    argument, and [get] with a name reads that name from the four options of
    the argument, while the metadata cache, [useChecksum] and [stopped] are
    left as they were. *)
Theorem start_replaces_configuration (st : State) (o : StartArg) (n : string) :
  let st' := fst (step st (Start o)) in
  options st' = arg_options o /\ filters st' = arg_filters o /\
  get (GName n) st' = GValue (option_field n (arg_options o)) /\
  tableMap st' = tableMap st /\ useChecksum st' = useChecksum st /\
  stopped st' = stopped st.
Proof.
  intros st'. subst st'. destruct (stopped st) eqn:Hs.
  - rewrite step_start_stopped by done. by destruct st.
  - rewrite step_start_live by done. by destruct st.
Qed.

(** ** What stops a session, and what a stopped session still does *)

Lemma step_stopped_frame (st : State) (i : input) :
  is_stop i = false -> Rframe stopped st (fst (step st i)) (snd (step st i)).
Proof.
  intros Hi. destruct i; cbn [step]; try discriminate;
    try (as_keeps; keeps_tac; fail).
  - as_keeps. apply keeps_reply; [apply _|]. intros s k Hk.
    apply keeps_after_delete; [apply _ | done |]. destruct k; keeps_tac.
  - destruct (binlogStream st); [|apply comp_refl]. as_keeps. keeps_tac.
Qed.

(** X3: only [stop()] stops a session: after any sequence of calls,
    answers and errors, [stopped] is set exactly when it was set before or
    [stop] was among the calls.  Failed queries, connection errors and
    metadata faults never set it. *)
Theorem only_stop_stops (st : State) (ins : list input) :
  stopped (fst (run st ins)) = stopped st || existsb is_stop ins.
Proof.
  revert st. induction ins as [|i ins IH]; intros st; cbn [run existsb].
  - by rewrite orb_false_r.
  - assert (Hi : stopped (fst (step st i)) = stopped st || is_stop i).
    { destruct (is_stop i) eqn:E.
      - destruct i; try discriminate. rewrite stopped_after_stop.
        by rewrite orb_true_r.
      - rewrite orb_false_r. by apply step_stopped_frame. }
    destruct (step st i) as [s1 o1]. specialize (IH s1).
    destruct (run s1 ins) as [s2 o2]. cbn [fst] in *.
    by rewrite IH, Hi, orb_assoc.
Qed.

Lemma existsb_ready_In (o : list action) :
  existsb is_ready_note o = true <-> In (Emit NReady) o.
Proof.
  rewrite existsb_exists. split.
  - intros (a & Ha & Hr). by destruct a as [[]| | | | | | | | |].
  - intros H. by exists (Emit NReady).
Qed.

#[local] Instance Rready_comp : Compositional Rready.
Proof.
  split.
  - intros s. unfold Rready. simpl. by rewrite !orb_false_r.
  - intros s1 s2 s3 o1 o2 [A1 A2] [B1 B2]. unfold Rready.
    rewrite existsb_app, B1, B2, A1, A2, !orb_assoc. done.
Qed.

Lemma Rready_modify (f : State -> State) :
  (forall st, ready (f st) = ready st /\ binlogStream (f st) = binlogStream st) ->
  keeps Rready (modify f).
Proof.
  intros Hf st. destruct (Hf st) as [H1 H2]. unfold Rready. simpl.
  by rewrite H1, H2, !orb_false_r.
Qed.

Lemma Rready_perform (x : action) : is_ready_note x = false -> keeps Rready (perform x).
Proof. intros Hx st. unfold Rready. simpl. by rewrite Hx, !orb_false_r. Qed.

Lemma Rready_all_then : keeps Rready all_then.
Proof.
  intros [? ? ? rd s ? ? ? bs h ? ? ?].
  unfold all_then, andThen, read, perform, modify, emit, skip, perform, Rready.
  simpl. destruct s, h; simpl; by rewrite ?orb_false_r, ?orb_true_r.
Qed.

#[local] Hint Resolve Rready_all_then : keeps.
#[local] Hint Extern 1 (keeps Rready (modify _)) =>
  apply Rready_modify; intros []; split; reflexivity : keeps.
#[local] Hint Extern 1 (keeps Rready (upd_run _ _)) =>
  apply Rready_modify; intros []; split; reflexivity : keeps.
#[local] Hint Extern 1 (keeps Rready (perform _)) =>
  apply Rready_perform; reflexivity : keeps.
#[local] Hint Extern 1 (keeps Rready (query _ _ _)) =>
  unfold query; apply keeps_andThen;
    [apply _ | apply Rready_perform; reflexivity
    | apply Rready_modify; intros []; split; reflexivity] : keeps.
#[local] Hint Extern 1 (keeps Rready (react _)) =>
  apply keeps_react;
    [apply _ | apply Rready_all_then | intros ?; apply Rready_perform; reflexivity]
  : keeps.

Lemma step_ready (st : State) (i : input) :
  Rready st (fst (step st i)) (snd (step st i)).
Proof.
  destruct i; cbn [step]; try (as_keeps; unfold stop; keeps_tac; fail).
  - as_keeps. apply keeps_reply; [apply _|]. intros s k Hk.
    apply keeps_after_delete; [apply _ | |].
    + unfold Rready. simpl. by rewrite !orb_false_r.
    + destruct k; keeps_tac.
  - destruct (binlogStream st); [|apply comp_refl]. as_keeps. keeps_tac.
Qed.

(** X4: in every run of a new session, the [ready] flag is set exactly
    when ['ready'] has been emitted, and the binlog stream exists exactly
    when [ready] is set. *)
Theorem ready_iff_emitted (h : bool) (ins : list input) :
  let r := run (ZongJi_new h) ins in
  (ready (fst r) = true <-> In (Emit NReady) (snd r)) /\
  binlogStream (fst r) = ready (fst r).
Proof.
  intros r.
  destruct (keeps_run Rready (fun _ => True) (fun s i _ => step_ready s i) ins
              (ZongJi_new h)) as [H1 H2]; [by apply Forall_forall|].
  fold r in H1, H2. simpl in H1, H2. rewrite H1, H2. split; [|done].
  apply existsb_ready_In.
Qed.

#[local] Instance Rquiet_comp : Compositional Rquiet.
Proof.
  split.
  - intros s. unfold Rquiet. auto.
  - intros s1 s2 s3 o1 o2 A B H. destruct (A H) as [A1 A2].
    destruct (B A1) as [B1 B2]. split; [done|]. by apply Forall_app.
Qed.

Lemma Rquiet_modify (f : State -> State) :
  (forall st, stopped (f st) = stopped st) -> keeps Rquiet (modify f).
Proof. intros Hf st H. simpl. rewrite Hf. auto. Qed.

Lemma Rquiet_perform (x : action) : stream_use x = false -> keeps Rquiet (perform x).
Proof. intros Hx st H. simpl. split; [done|]. by repeat constructor. Qed.

(** The pieces of code that test [stopped] themselves. *)
Lemma Rquiet_guarded : 
  keeps Rquiet all_then /\ keeps Rquiet stop /\ keeps Rquiet pause /\
  keeps Rquiet resume.
Proof.
  split; [|split; [|split]]; intros [? ? ? ? s ? ? ? ? h ? ? ?] Hs;
    simpl in Hs; subst s; simpl; repeat constructor.
Qed.

#[local] Hint Extern 1 (keeps Rquiet (modify _)) =>
  apply Rquiet_modify; intros []; reflexivity : keeps.
#[local] Hint Extern 1 (keeps Rquiet (upd_run _ _)) =>
  apply Rquiet_modify; intros []; reflexivity : keeps.
#[local] Hint Extern 1 (keeps Rquiet (perform _)) =>
  apply Rquiet_perform; reflexivity : keeps.
#[local] Hint Extern 1 (keeps Rquiet (query _ _ _)) =>
  unfold query; apply keeps_andThen;
    [apply _ | apply Rquiet_perform; reflexivity
    | apply Rquiet_modify; intros []; reflexivity] : keeps.
#[local] Hint Extern 1 (keeps Rquiet (react _)) =>
  apply keeps_react;
    [apply _ | apply Rquiet_guarded | intros ?; apply Rquiet_perform; reflexivity]
  : keeps.

Lemma step_quiet (st : State) (i : input) :
  Rquiet st (fst (step st i)) (snd (step st i)).
Proof.
  destruct i; cbn [step].
  - as_keeps. keeps_tac.
  - as_keeps. apply Rquiet_guarded.
  - as_keeps. apply Rquiet_guarded.
  - as_keeps. apply Rquiet_guarded.
  - as_keeps. keeps_tac.
  - as_keeps. apply keeps_reply; [apply _|]. intros s k Hk.
    apply keeps_after_delete; [apply _ | |].
    + intros H. simpl. auto.
    + destruct k; keeps_tac.
  - as_keeps. keeps_tac.
  - as_keeps. keeps_tac.
  - destruct (binlogStream st); [|apply comp_refl]. as_keeps. keeps_tac.
Qed.

(** X5: once the session is stopped, nothing that follows pauses or
    resumes the stream connection, constructs or starts the binlog stream,
    destroys the stream connection again or emits ['ready']. *)
Theorem stopped_session_leaves_stream_alone (st : State) (ins : list input) :
  stopped st = true ->
  Forall (fun a => stream_use a = false) (snd (run st ins)).
Proof.
  intros Hs.
  apply (keeps_run Rquiet (fun _ => True) (fun s i _ => step_quiet s i) ins st);
    [by apply Forall_forall | done].
Qed.

Lemma stopped_session_leaves_stream_alone_witness :
  let st := fst (run (ZongJi_new true) [Start empty_arg; Stop]) in
  Forall (fun a => stream_use a = false)
    (snd (run st [PauseCall; Reply 0 (QRows [∅]); Reply 1 (QRows []); ResumeCall; Stop])).
Proof.
  intros st.
  apply (stopped_session_leaves_stream_alone st); reflexivity.
Defined.

Lemma count_act_app (p : action -> bool) (o1 o2 : list action) :
  count_act p (o1 ++ o2) = count_act p o1 + count_act p o2.
Proof. induction o1 as [|x l IH]; simpl; [done|]. rewrite IH. lia. Qed.

#[local] Instance Rtear_comp : Compositional Rtear.
Proof.
  split.
  - intros s. unfold Rtear. simpl. split; [lia|]. done.
  - intros s1 s2 s3 o1 o2 (A1 & A2 & A3) (B1 & B2 & B3). unfold Rtear.
    rewrite !count_act_app, count_stopped_app. split; [lia|].
    split; [congruence|]. intros H. rewrite A3 by done.
    rewrite B3 by congruence. done.
Qed.

Lemma Rtear_modify (f : State -> State) :
  (forall st, stopped (f st) = stopped st /\
              ctrlConnectionOwner (f st) = ctrlConnectionOwner st) ->
  keeps Rtear (modify f).
Proof.
  intros Hf st. destruct (Hf st) as [H1 H2]. unfold Rtear. simpl.
  rewrite H1, H2. split; [lia|]. done.
Qed.

Lemma Rtear_perform (x : action) :
  is_destroy Stream x = false -> is_destroy Ctrl x = false ->
  is_stopped_note x = false -> keeps Rtear (perform x).
Proof.
  intros H1 H2 H3 st. unfold Rtear. simpl. rewrite H1, H2, H3.
  split; [lia|]. done.
Qed.

Lemma Rtear_stop : keeps Rtear stop.
Proof.
  intros [? ? ? ? s ? ? ? ? ? ? ? ?]. unfold Rtear. destruct s; simpl; auto.
Qed.

#[local] Hint Extern 1 (keeps Rtear (modify _)) =>
  apply Rtear_modify; intros []; split; reflexivity : keeps.
#[local] Hint Extern 1 (keeps Rtear (upd_run _ _)) =>
  apply Rtear_modify; intros []; split; reflexivity : keeps.
#[local] Hint Extern 1 (keeps Rtear (perform _)) =>
  apply Rtear_perform; reflexivity : keeps.
#[local] Hint Extern 1 (keeps Rtear (query _ _ _)) =>
  unfold query; apply keeps_andThen;
    [apply _ | apply Rtear_perform; reflexivity
    | apply Rtear_modify; intros []; split; reflexivity] : keeps.
#[local] Hint Extern 1 (keeps Rtear all_then) =>
  unfold all_then; keeps_tac : keeps.
#[local] Hint Extern 1 (keeps Rtear (react _)) =>
  apply keeps_react;
    [apply _ | unfold all_then; keeps_tac
    | intros ?; apply Rtear_perform; reflexivity] : keeps.

Lemma step_tear (st : State) (i : input) :
  Rtear st (fst (step st i)) (snd (step st i)).
Proof.
  destruct i; cbn [step]; try (as_keeps; keeps_tac; fail).
  - as_keeps. apply Rtear_stop.
  - as_keeps. apply keeps_reply; [apply _|]. intros s k Hk.
    destruct k; try (apply keeps_after_delete; [apply _ | | keeps_tac];
                     unfold Rtear; simpl; split; [lia | done]).
    destruct s as [? ? ? ? sp ? own ? ? ? ? ? ?]. unfold Rtear.
    destruct own, sp; simpl; repeat split; try done; discriminate.
  - destruct (binlogStream st); [|apply comp_refl]. as_keeps. keeps_tac.
Qed.

(** X6: teardown happens once: in every run of a new session the stream
    connection is destroyed exactly once if the session was stopped and not
    at all otherwise, and the control connection is destroyed exactly as
    often as ['stopped'] is emitted, which is at most once. *)
Theorem teardown_once (h : bool) (ins : list input) :
  let r := run (ZongJi_new h) ins in
  count_act (is_destroy Stream) (snd r) = (if stopped (fst r) then 1 else 0) /\
  count_act (is_destroy Ctrl) (snd r) = count_stopped (snd r) /\
  count_stopped (snd r) <= 1.
Proof.
  intros r.
  destruct (keeps_run Rtear (fun _ => True) (fun s i _ => step_tear s i) ins
              (ZongJi_new h)) as (H1 & H2 & H3); [by apply Forall_forall|].
  fold r in H1, H2, H3. simpl in H1, H3. split; [|split].
  - destruct (stopped (fst r)); lia.
  - by apply H3.
  - apply stopped_at_most_once.
Qed.

(** ** Table metadata cache: what changes it *)

Lemma step_cache (st : State) (i : input) (id : N) :
  tableMap (fst (step st i)) !! id = tableMap st !! id \/
  exists j ev r rows,
    i = Reply j (QRows (r :: rows)) /\ pending st !! j = Some (KTableInfo ev) /\
    ev_tableId ev = id /\
    tableMap (fst (step st i)) !! id =
      Some (MkTableInfo (r :: rows) (ev_schemaName ev) (ev_tableName ev)).
Proof.
  assert (Hframe : forall a, keeps (Rframe tableMap) a ->
            tableMap (fst (a st)) !! id = tableMap st !! id).
  { intros a Ha. by rewrite (Ha st). }
  destruct i as [o| | | |ev|j res|c e|tid|err evt];
    try (left; cbn [step]; apply Hframe; unfold stop; keeps_tac; fail).
  - destruct (pending st !! j) as [k|] eqn:Hk.
    2: { left. cbn [step]. unfold reply. by rewrite Hk. }
    rewrite (reply_at _ _ _ _ Hk).
    destruct k as [rid|rid|rid|rid|ev|];
      try (left;
           match goal with
           | |- tableMap (fst (run_cont ?k ?r ?s)) !! _ = _ =>
               assert (Hk' : keeps (Rframe tableMap) (run_cont k r)) by keeps_tac;
               by rewrite (Hk' s)
           end).
    destruct res as [e|[|r rows]]; [by left | by left |].
    cbn [run_cont]. rewrite on_table_info_rows by done. cbn [fst tableMap set_tableMap
      set_pending].
    destruct (decide (ev_tableId ev = id)) as [<-|Hne].
    + right. exists j, ev, r, rows. by rewrite lookup_insert_eq.
    + left. by rewrite lookup_insert_ne.
  - left. cbn [step]. by destruct (binlogStream st).
Qed.

(** X7: an entry of the metadata cache changes only when a metadata
    query for that very table id is answered with at least one row, and it is
    then the entry built from that event and those rows.  Nothing else
    ([start], [stop], failed lookups, lookups for other ids) touches it. *)
Theorem cache_entry_changes_only_by_resolution (st : State) (i : input) (id : N) :
  tableMap (fst (step st i)) !! id <> tableMap st !! id ->
  exists j ev r rows,
    i = Reply j (QRows (r :: rows)) /\ pending st !! j = Some (KTableInfo ev) /\
    ev_tableId ev = id /\
    tableMap (fst (step st i)) !! id =
      Some (MkTableInfo (r :: rows) (ev_schemaName ev) (ev_tableName ev)).
Proof. intros Hne. by destruct (step_cache st i id). Qed.

Lemma cache_entry_changes_only_by_resolution_witness :
  let ev := MkTableMapEvent 3 "db1" "t1" in
  let st := fst (step (ZongJi_new true) (FetchTableInfo ev)) in
  exists j ev' r rows,
    Reply 0 (QRows [∅]) = Reply j (QRows (r :: rows)) /\
    pending st !! j = Some (KTableInfo ev') /\ ev_tableId ev' = 3%N.
Proof.
  intros ev st.
  destruct (cache_entry_changes_only_by_resolution st (Reply 0 (QRows [∅])) 3)
    as (j & ev' & r & rows & H1 & H2 & H3 & _).
  - vm_compute. discriminate.
  - exists j, ev', r, rows. auto.
Defined.

(** X8: the metadata cache never evicts: a table id that has an entry
    keeps one through every later call, answer and error, [stop] and a new
    [start] included. *)
Theorem cache_never_evicts (st : State) (ins : list input) (id : N) :
  is_Some (tableMap st !! id) ->
  is_Some (tableMap (fst (run st ins)) !! id).
Proof.
  revert st. induction ins as [|i ins IH]; intros st H; cbn [run]; [done|].
  assert (H1 : is_Some (tableMap (fst (step st i)) !! id)).
  { destruct (step_cache st i id) as [->|(j & ev & r & rows & _ & _ & _ & ->)];
      [done | by eexists]. }
  destruct (step st i) as [s1 o1]. specialize (IH s1 H1).
  by destruct (run s1 ins).
Qed.

Lemma cache_never_evicts_witness :
  let ev := MkTableMapEvent 3 "db1" "t1" in
  let st := fst (run (ZongJi_new true) [FetchTableInfo ev; Reply 0 (QRows [∅])]) in
  is_Some (tableMap (fst (run st [FetchTableInfo ev; Reply 0 (QRows []); Stop;
                                  Start empty_arg])) !! 3%N).
Proof.
  intros ev st.
  apply (cache_never_evicts st). vm_compute. by eexists.
Defined.



(** ** Outcomes of the checksum negotiation *)

Lemma lookup_snoc_at {A} (l : list A) (x : A) (n : nat) :
  n = length l -> (l ++ [x]) !! n = Some x.
Proof. intros ->. apply lookup_snoc_last. Qed.

Lemma delete_snoc_at {A} (l : list A) (x : A) (n : nat) :
  n = length l -> delete n (l ++ [x]) = l.
Proof. intros ->. apply delete_snoc_last. Qed.

(** The state and the waiting callbacks after a live [start] whose checksum
    query has been answered by [res]. *)
Lemma start_then_select (st : State) (o : StartArg) (res : QueryResult) :
  stopped st = false ->
  let st1 := fst (step st (Start o)) in
  step st1 (Reply (length (pending st)) res) =
  run_cont (KSelectChecksum (length (runs st))) res
    (set_pending
       (pending st ++
        (if truthy (startAtEnd (arg_options o))
         then [KShowBinaryLogs (length (runs st))] else []))
       st1).
Proof.
  intros Hs st1. subst st1. rewrite step_start_live by done. cbn [fst].
  rewrite (reply_at _ _ (KSelectChecksum (length (runs st)))).
  2: { cbn [pending set_pending]. by apply list_lookup_middle. }
  cbn [pending set_pending]. rewrite delete_middle. by destruct st.
Qed.

(** X10: a live [start] whose checksum query is answered with rows: when
    the first row says [NONE] the stream connection gets [SELECT 1] and the
    negotiated flag is [false]; otherwise it gets the statement that adopts
    the server's checksum and the flag is [true].  When that statement
    succeeds the flag is stored in [useChecksum], and ['ready'] follows at
    once unless the tail position is still being resolved. *)
Theorem checksum_flag_follows_server (st : State) (o : StartArg) (r0 : row)
    (rows rows2 : list row) :
  stopped st = false ->
  let wantEnd := truthy (startAtEnd (arg_options o)) in
  let none := is_NONE (field "checksum" r0) in
  let st1 := fst (step st (Start o)) in
  let r2 := step st1 (Reply (length (pending st)) (QRows (r0 :: rows))) in
  let j := length (pending st) + (if wantEnd then 1 else 0) in
  let r3 := step (fst r2) (Reply j (QRows rows2)) in
  snd r2 = [Query Stream (if none then "SELECT 1" else SetChecksumSql)] /\
  pending (fst r2) !! j = Some (KAfterThen (length (runs st))) /\
  useChecksum (fst r3) = negb none /\
  notifications (snd r3) = (if wantEnd then [] else [NReady]) /\
  ready (fst r3) = (if wantEnd then ready st else true).
Proof.
  intros Hs wantEnd none st1 r2 j r3.
  assert (E2 : r2 =
    (set_pending
       (pending st ++ (if wantEnd then [KShowBinaryLogs (length (runs st))] else []) ++
        [KAfterThen (length (runs st))])
       (set_runs
          (runs st ++
           [MkRun o (negb none) Pending (if wantEnd then Some Pending else None) Pending])
          (set_filters (arg_filters o) (set_options (arg_options o) st))),
     [Query Stream (if none then "SELECT 1" else SetChecksumSql)])).
  { subst r2 st1. rewrite start_then_select by done.
    rewrite step_start_live by done. fold wantEnd.
    destruct st. simpl in Hs. subst. unfold_acts. st_simpl. fold none.
    destruct none, wantEnd; exec; rewrite <- ?app_assoc; reflexivity. }
  subst r3. rewrite E2. cbn [fst snd]. split; [done|].
  assert (Hj : forall (l : list cont) x, 
    (l ++ (if wantEnd then [KShowBinaryLogs (length (runs st))] else []) ++ [x]) !!
      (length l + (if wantEnd then 1 else 0)) = Some x).
  { intros l x. rewrite app_assoc. apply lookup_snoc_at. rewrite length_app.
    by destruct wantEnd. }
  split; [apply Hj|].
  rewrite (reply_at _ _ (KAfterThen (length (runs st)))) by apply Hj.
  cbn [pending set_pending]. rewrite app_assoc, delete_snoc_at.
  2: { rewrite length_app. by destruct wantEnd. }
  clear E2 Hj. clearbody none wantEnd. clear r2 st1 j.
  destruct st as [op fi tm rd sp uc own bc bs hs tid rs pd]. simpl in Hs. subst.
  unfold_acts. st_simpl.
  destruct none, wantEnd, hs; exec; repeat split.
Qed.

Lemma checksum_flag_follows_server_witness :
  let crc : row := {[ "checksum" := VStr "CRC32" ]} in
  let st1 := fst (step (ZongJi_new true) (Start empty_arg)) in
  let r2 := step st1 (Reply 0 (QRows [crc])) in
  let r3 := step (fst r2) (Reply 0 (QRows [])) in
  snd r2 = [Query Stream SetChecksumSql] /\ useChecksum (fst r3) = true /\
  notifications (snd r3) = [NReady].
Proof.
  intros crc st1 r2 r3.
  destruct (checksum_flag_follows_server (ZongJi_new true) empty_arg crc [] [] eq_refl)
    as (H1 & _ & H3 & H4 & _).
  split; [exact H1|]. split; [exact H3 | exact H4].
Defined.

(** The session after a live [start] whose checksum query failed for want
    of the checksum variable. *)
Lemma start_select_unknown (st : State) (o : StartArg) (e : JsError) :
  stopped st = false ->
  str_contains "ER_UNKNOWN_SYSTEM_VARIABLE" (err_toString e) = true ->
  let wantEnd := truthy (startAtEnd (arg_options o)) in
  step (fst (step st (Start o))) (Reply (length (pending st)) (QErr e)) =
  (set_pending
     (pending st ++ (if wantEnd then [KShowBinaryLogs (length (runs st))] else []) ++
      [KAfterCatch (length (runs st))])
     (set_runs
        (runs st ++
         [MkRun o false Pending (if wantEnd then Some Pending else None) Pending])
        (set_filters (arg_filters o) (set_options (arg_options o) st))),
   [Query Stream "SELECT 1"]).
Proof.
  intros Hs He wantEnd. rewrite start_then_select by done.
  rewrite step_start_live by done. fold wantEnd.
  destruct st. simpl in Hs. subst. unfold_acts. st_simpl. rewrite He.
  destruct wantEnd; exec; rewrite <- ?app_assoc; reflexivity.
Qed.

(** X11: a server without the checksum variable: when the checksum query
    fails with an error whose text contains [ER_UNKNOWN_SYSTEM_VARIABLE], no
    ['error'] is emitted; the stream connection gets [SELECT 1], and when
    that succeeds [useChecksum] is [false] and [start] goes on as after a
    successful negotiation. *)
Theorem unknown_checksum_variable_means_disabled (st : State) (o : StartArg)
    (e : JsError) (rows2 : list row) :
  stopped st = false ->
  str_contains "ER_UNKNOWN_SYSTEM_VARIABLE" (err_toString e) = true ->
  let wantEnd := truthy (startAtEnd (arg_options o)) in
  let st1 := fst (step st (Start o)) in
  let r2 := step st1 (Reply (length (pending st)) (QErr e)) in
  let j := length (pending st) + (if wantEnd then 1 else 0) in
  let r3 := step (fst r2) (Reply j (QRows rows2)) in
  snd r2 = [Query Stream "SELECT 1"] /\
  pending (fst r2) !! j = Some (KAfterCatch (length (runs st))) /\
  useChecksum (fst r3) = false /\
  notifications (snd r3) = (if wantEnd then [] else [NReady]) /\
  ready (fst r3) = (if wantEnd then ready st else true).
Proof.
  intros Hs He wantEnd st1 r2 j r3.
  assert (E2 : r2 =
    (set_pending
       (pending st ++ (if wantEnd then [KShowBinaryLogs (length (runs st))] else []) ++
        [KAfterCatch (length (runs st))])
       (set_runs
          (runs st ++
           [MkRun o false Pending (if wantEnd then Some Pending else None) Pending])
          (set_filters (arg_filters o) (set_options (arg_options o) st))),
     [Query Stream "SELECT 1"])).
  { subst r2 st1. by apply start_select_unknown. }
  subst r3. rewrite E2. cbn [fst snd]. split; [done|].
  assert (Hj : forall (l : list cont) x,
    (l ++ (if wantEnd then [KShowBinaryLogs (length (runs st))] else []) ++ [x]) !!
      (length l + (if wantEnd then 1 else 0)) = Some x).
  { intros l x. rewrite app_assoc. apply lookup_snoc_at. rewrite length_app.
    by destruct wantEnd. }
  split; [apply Hj|].
  rewrite (reply_at _ _ (KAfterCatch (length (runs st)))) by apply Hj.
  cbn [pending set_pending]. rewrite app_assoc, delete_snoc_at.
  2: { rewrite length_app. by destruct wantEnd. }
  clear E2 Hj. clearbody wantEnd. clear r2 st1 j.
  destruct st as [op fi tm rd sp uc own bc bs hs tid rs pd]. simpl in Hs. subst.
  unfold_acts. st_simpl.
  destruct wantEnd, hs; exec; repeat split.
Qed.

Lemma unknown_checksum_variable_means_disabled_witness :
  let e := MkError "Error" "ER_UNKNOWN_SYSTEM_VARIABLE: Unknown system variable 'binlog_checksum'" in
  let st1 := fst (step (ZongJi_new true) (Start empty_arg)) in
  let r2 := step st1 (Reply 0 (QErr e)) in
  let r3 := step (fst r2) (Reply 0 (QRows [])) in
  snd r2 = [Query Stream "SELECT 1"] /\ useChecksum (fst r3) = false /\
  notifications (snd r3) = [NReady].
Proof.
  intros e st1 r2 r3.
  destruct (unknown_checksum_variable_means_disabled (ZongJi_new true) empty_arg e []
              eq_refl eq_refl) as (H1 & _ & H3 & H4 & _).
  split; [exact H1|]. split; [exact H3 | exact H4].
Defined.

(** X12: an empty answer to the checksum query makes [start] fail: reading
    [rows[0].checksum] throws a [TypeError], which is emitted as ['error'];
    [ready] is left as it was, and [useChecksum] ends up [true]. *)
Theorem empty_checksum_answer_fails_start (st : State) (o : StartArg) :
  stopped st = false ->
  let st1 := fst (step st (Start o)) in
  let r2 := step st1 (Reply (length (pending st)) (QRows [])) in
  notifications (snd r2) = [NError checksum_TypeError] /\
  err_name checksum_TypeError = "TypeError" /\
  ready (fst r2) = ready st /\ useChecksum (fst r2) = true /\
  pAll <$> runs (fst r2) !! length (runs st) = Some (Rejected checksum_TypeError).
Proof.
  intros Hs st1 r2. subst r2 st1. rewrite start_then_select by done.
  rewrite step_start_live by done.
  destruct st as [op fi tm rd sp uc own bc bs hs tid rs pd]. simpl in Hs. subst.
  unfold_acts. st_simpl.
  change (str_contains "ER_UNKNOWN_SYSTEM_VARIABLE" (err_toString checksum_TypeError))
    with false.
  destruct (truthy (startAtEnd (arg_options o))); exec; repeat split.
Qed.

Lemma empty_checksum_answer_fails_start_witness :
  let st1 := fst (step (ZongJi_new true) (Start empty_arg)) in
  notifications (snd (step st1 (Reply 0 (QRows [])))) = [NError checksum_TypeError].
Proof.
  intros st1.
  apply (empty_checksum_answer_fails_start (ZongJi_new true) empty_arg eq_refl).
Defined.

Lemma checksum_conts_app (l1 l2 : list cont) :
  checksum_conts (l1 ++ l2) = checksum_conts l1 + checksum_conts l2.
Proof. induction l1 as [|x l IH]; simpl; [done|]. rewrite IH. lia. Qed.

Lemma checksum_conts_delete (l : list cont) (i : nat) (k : cont) :
  l !! i = Some k ->
  checksum_conts l = checksum_conts (delete i l) + (if is_checksum_cont k then 1 else 0).
Proof.
  revert i. induction l as [|x l IH]; intros [|i] H; simpl in *; try done.
  - injection H as ->. lia.
  - apply IH in H. lia.
Qed.

#[local] Instance Rstuck_comp : Compositional Rstuck.
Proof. split; unfold Rstuck; auto. Qed.

Lemma Rstuck_modify (f : State -> State) :
  (forall st, runs (f st) = runs st /\ pending (f st) = pending st) ->
  keeps Rstuck (modify f).
Proof.
  intros Hf st. destruct (Hf st) as [H1 H2]. unfold Rstuck, stuck. simpl.
  by rewrite H1, H2.
Qed.

Lemma Rstuck_perform (x : action) : keeps Rstuck (perform x).
Proof. intros st. unfold Rstuck. simpl. tauto. Qed.

Lemma Rstuck_query (c : conn) (sql : string) (k : cont) :
  is_checksum_cont k = false -> keeps Rstuck (query c sql k).
Proof.
  intros Hk st [H1 H2]. split; simpl; [|done].
  rewrite checksum_conts_app. simpl. rewrite Hk. lia.
Qed.

Lemma Rstuck_upd_run (rid : nat) (f : Run -> Run) :
  (forall r, pChecksum (f r) = pChecksum r) -> keeps Rstuck (upd_run rid f).
Proof.
  intros Hf st [H1 H2]. split; [done|]. simpl. destruct rid as [|rid].
  - rewrite list_lookup_alter_eq. destruct (runs st !! 0) as [r|]; [|done].
    simpl in *. by rewrite Hf.
  - by rewrite list_lookup_alter_ne.
Qed.

Lemma pChecksum_resolve_binlogEnd (r : Run) :
  pChecksum (resolve_in PBinlogEnd r) = pChecksum r.
Proof.
  destruct r as [a ce p1 p2 pa]. unfold resolve_in. simpl.
  destruct p2 as [[]|]; simpl; try done. destruct pa; simpl; try done.
  by destruct (all_resolved _).
Qed.

Lemma pChecksum_reject_binlogEnd (e : JsError) (r : Run) :
  pChecksum (reject_in PBinlogEnd e r) = pChecksum r.
Proof.
  destruct r as [a ce p1 p2 pa]. unfold reject_in. simpl.
  destruct p2 as [[]|]; simpl; try done. by destruct pa.
Qed.

#[local] Hint Resolve Rstuck_perform : keeps.
#[local] Hint Extern 1 (keeps Rstuck (modify _)) =>
  apply Rstuck_modify; intros []; split; reflexivity : keeps.
#[local] Hint Extern 1 (keeps Rstuck (query _ _ _)) =>
  apply Rstuck_query; reflexivity : keeps.
#[local] Hint Extern 1 (keeps Rstuck (upd_run _ _)) =>
  apply Rstuck_upd_run;
    first [apply pChecksum_resolve_binlogEnd | apply pChecksum_reject_binlogEnd]
  : keeps.
#[local] Hint Extern 1 (keeps Rstuck (react _)) =>
  apply keeps_react;
    [apply _ | unfold all_then; keeps_tac | intros ?; apply Rstuck_perform]
  : keeps.

Lemma step_stuck (st : State) (i : input) :
  is_start i = false -> Rstuck st (fst (step st i)) (snd (step st i)).
Proof.
  intros Hi. destruct i; cbn [step]; try discriminate;
    try (as_keeps; unfold stop; keeps_tac; fail).
  - as_keeps. apply keeps_reply; [apply _|]. intros s k Hk.
    pose proof (checksum_conts_delete _ _ _ Hk) as Hd.
    destruct (is_checksum_cont k) eqn:Ek.
    + intros r [Hz _]. lia.
    + apply keeps_after_delete; [apply _ | |].
      * intros [Hz Hp]. split; simpl; [lia | done].
      * destruct k; try discriminate; keeps_tac.
  - destruct (binlogStream st); [|apply comp_refl]. as_keeps. keeps_tac.
Qed.

(** X13: when the checksum query fails with an error whose text contains
    [ER_UNKNOWN_SYSTEM_VARIABLE] and the [SELECT 1] sent in its place fails
    as well, the session handles the failure nowhere: the callback of the
    negotiation is not called and no notification is emitted; the one effect
    is a promise rejection without handler, which is left to the runtime
    (Node ends the process unless it is configured otherwise).  Where the
    process goes on, whatever happens next (short of another [start]) the
    session never becomes ready. *)
Theorem unhandled_fallback_failure (h : bool) (o : StartArg)
    (e e' : JsError) (post : list input) :
  str_contains "ER_UNKNOWN_SYSTEM_VARIABLE" (err_toString e) = true ->
  Forall (fun x => is_start x = false) post ->
  let wantEnd := truthy (startAtEnd (arg_options o)) in
  let st1 := fst (step (ZongJi_new h) (Start o)) in
  let r2 := step st1 (Reply 0 (QErr e)) in
  let r3 := step (fst r2) (Reply (if wantEnd then 1 else 0) (QErr e')) in
  snd r2 = [Query Stream "SELECT 1"] /\ snd r3 = [UnhandledRejection e'] /\
  ~ In (Emit NReady) (snd (run (fst r3) post)) /\
  ready (fst (run (fst r3) post)) = false.
Proof.
  intros He Hpost wantEnd st1 r2 r3.
  assert (E2 := start_select_unknown (ZongJi_new h) o e eq_refl He).
  cbn zeta in E2. fold wantEnd st1 in E2. change (length (pending (ZongJi_new h))) with 0 in E2.
  fold r2 in E2.
  assert (E3 : r3 =
    (set_pending (if wantEnd then [KShowBinaryLogs 0] else [])
       (set_runs [MkRun o false Pending (if wantEnd then Some Pending else None) Pending]
          (set_filters (arg_filters o) (set_options (arg_options o) (ZongJi_new h)))),
     [UnhandledRejection e'])).
  { subst r3. rewrite E2. cbn [fst]. clear E2. clearbody wantEnd.
    destruct wantEnd; reflexivity. }
  split; [by rewrite E2|]. split; [by rewrite E3|].
  rewrite E3. cbn [fst]. clear E2 E3.
  set (s3 := set_pending _ _).
  assert (Hok : run_ok o s3).
  { eexists. subst s3. cbn. repeat split; done. }
  assert (Hst : stuck s3).
  { subst s3. split; cbn; [by destruct wantEnd | done]. }
  pose proof (keeps_run (Rok o) _ (step_ok o) post s3 Hpost Hok)
    as (r & H1 & _ & _ & H4).
  pose proof (keeps_run Rstuck _ step_stuck post s3 Hpost Hst) as [_ Hp].
  assert (Hr : ready (fst (run s3 post)) = false).
  { destruct (ready (fst (run s3 post))); [|done]. specialize (H4 eq_refl).
    rewrite H1 in Hp. simpl in Hp. injection Hp as Hp.
    unfold all_resolved in H4. by rewrite Hp in H4. }
  split; [|done]. intros Hin. apply (run_flags s3 post) in Hin.
  destruct Hin. congruence.
Qed.

Lemma unhandled_fallback_failure_witness :
  let e := MkError "Error" "ER_UNKNOWN_SYSTEM_VARIABLE: Unknown system variable 'binlog_checksum'" in
  let e' := MkError "Error" "read ECONNRESET" in
  let st1 := fst (step (ZongJi_new true) (Start empty_arg)) in
  let r2 := step st1 (Reply 0 (QErr e)) in
  let r3 := step (fst r2) (Reply 0 (QErr e')) in
  snd r3 = [UnhandledRejection e'] /\
  ~ In (Emit NReady) (snd (run (fst r3) [PauseCall; ConnectionError Stream e'])).
Proof.
  intros e e' st1 r2 r3.
  destruct (unhandled_fallback_failure true empty_arg e e'
              [PauseCall; ConnectionError Stream e'] eq_refl)
    as (_ & H2 & H3 & _).
  - repeat constructor.
  - split; [exact H2 | exact H3].
Defined.

(** ** A failed tail-position resolution *)

#[local] Instance Rlost_comp (e : JsError) : Compositional (Rlost e).
Proof. split; unfold Rlost; auto. Qed.

Lemma Rlost_modify (e : JsError) (f : State -> State) :
  (forall st, runs (f st) = runs st) -> keeps (Rlost e) (modify f).
Proof. intros Hf st. unfold Rlost. simpl. by rewrite Hf. Qed.

Lemma Rlost_perform (e : JsError) (x : action) : keeps (Rlost e) (perform x).
Proof. intros st. unfold Rlost. simpl. tauto. Qed.

Lemma Rlost_upd_run (e : JsError) (rid : nat) (f : Run -> Run) :
  (forall r, pBinlogEnd r = Some (Rejected e) -> pBinlogEnd (f r) = Some (Rejected e)) ->
  keeps (Rlost e) (upd_run rid f).
Proof.
  intros Hf st. unfold Rlost. simpl. destruct rid as [|rid].
  - rewrite list_lookup_alter_eq. destruct (runs st !! 0) as [r|]; [|done].
    simpl. intros [= H]. f_equal. by apply Hf.
  - by rewrite list_lookup_alter_ne.
Qed.

Lemma settled_binlogEnd_stays (e : JsError) :
  (forall w r, pBinlogEnd r = Some (Rejected e) ->
     pBinlogEnd (resolve_in w r) = Some (Rejected e)) /\
  (forall w e' r, pBinlogEnd r = Some (Rejected e) ->
     pBinlogEnd (reject_in w e' r) = Some (Rejected e)) /\
  (forall b r, pBinlogEnd r = Some (Rejected e) ->
     pBinlogEnd (set_checksumEnabled b r) = Some (Rejected e)).
Proof.
  split; [|split].
  - intros w [a ce p1 p2 pa] H. simpl in H. subst p2. unfold resolve_in.
    destruct w, p1, pa; simpl; try done; by destruct (all_resolved _).
  - intros w e' [a ce p1 p2 pa] H. simpl in H. subst p2. unfold reject_in.
    destruct w, p1, pa; simpl; done.
  - by intros b [].
Qed.

#[local] Hint Resolve Rlost_perform : keeps.
#[local] Hint Extern 1 (keeps (Rlost _) (modify _)) =>
  apply Rlost_modify; intros []; reflexivity : keeps.
#[local] Hint Extern 1 (keeps (Rlost _) (query _ _ _)) =>
  unfold query; apply keeps_andThen;
    [apply _ | apply Rlost_perform | apply Rlost_modify; intros []; reflexivity]
  : keeps.
#[local] Hint Extern 1 (keeps (Rlost _) (upd_run _ _)) =>
  apply Rlost_upd_run; apply settled_binlogEnd_stays : keeps.
#[local] Hint Extern 1 (keeps (Rlost _) (react _)) =>
  apply keeps_react;
    [apply _ | unfold all_then; keeps_tac | intros ?; apply Rlost_perform]
  : keeps.

Lemma step_lost (e : JsError) (st : State) (i : input) :
  is_start i = false -> Rlost e st (fst (step st i)) (snd (step st i)).
Proof.
  intros Hi. destruct i; cbn [step]; try discriminate;
    try (as_keeps; unfold stop; keeps_tac; fail).
  - as_keeps. apply keeps_reply; [apply _|]. intros s k Hk.
    apply keeps_after_delete; [apply _ | by intros H |]. destruct k; keeps_tac.
  - destruct (binlogStream st); [|apply comp_refl]. as_keeps. keeps_tac.
Qed.

(** X14: a new session is started once and [SHOW BINARY LOGS] fails with
    [e].  The options stay those of the caller; the failure is emitted as
    ['error'] if the start was still undecided and dropped if the start had
    failed already; and whatever happens next (short of another [start]) the
    session never becomes ready. *)
Theorem failed_tail_resolution_fails_start (h : bool) (o : StartArg)
    (pre post : list input) (i rid : nat) (e : JsError) :
  Forall (fun x => is_start x = false) pre ->
  Forall (fun x => is_start x = false) post ->
  let r1 := run (ZongJi_new h) (Start o :: pre) in
  pending (fst r1) !! i = Some (KShowBinaryLogs rid) ->
  let r2 := step (fst r1) (Reply i (QErr e)) in
  options (fst r2) = arg_options o /\
  notifications (snd r2) =
    match pAll <$> runs (fst r1) !! 0 with
    | Some Pending => [NError e]
    | _ => []
    end /\
  ~ In (Emit NReady) (snd r1 ++ snd r2 ++ snd (run (fst r2) post)) /\
  ready (fst (run (fst r2) post)) = false.
Proof.
  intros Hpre Hpost r1 Hk r2.
  assert (Hs1 : single_run o (fst r1)).
  { subst r1. cbn [run].
    pose proof (single_run_after_start h o) as H0.
    destruct (step (ZongJi_new h) (Start o)) as [s0 o0].
    pose proof (run_single_run o pre s0 Hpre H0) as H1.
    by destruct (run s0 pre). }
  destruct (show_reply_single_run o (fst r1) i rid (QErr e) Hs1 Hk)
    as ([Hok2 _] & _ & Hr1 & Ho & _).
  fold r2 in Hok2.
  destruct Hs1 as [(r & R1 & R2 & R3 & R4) [_ Haw]].
  destruct (Haw rid) as (-> & Hp & _).
  { eapply list_elem_of_In, list_elem_of_lookup_2, Hk. }
  rewrite R1 in Hp. simpl in Hp. injection Hp as Hp.
  assert (E2 : r2 = reacting 0 (reject PBinlogEnd 0 e)
                      (set_pending (delete i (pending (fst r1))) (fst r1))).
  { subst r2. by rewrite (reply_at _ _ _ _ Hk). }
  assert (Hopt : options (fst r2) = arg_options o).
  { rewrite E2, frame_reacting by keeps_tac.
    assert (Hf : keeps (Rframe options) (reject PBinlogEnd 0 e)) by keeps_tac.
    by rewrite (Hf _). }
  assert (Hrun : pBinlogEnd <$> runs (fst r2) !! 0 = Some (Some (Rejected e))).
  { rewrite E2, frame_reacting by keeps_tac.
    unfold reject, upd_run, modify. cbn [fst runs set_runs set_pending].
    rewrite R1. destruct r as [a ce p1 p2 pa]. simpl in Hp. subst p2.
    unfold reject_in. by destruct pa. }
  assert (Hnote : notifications (snd r2) =
            match pAll <$> runs (fst r1) !! 0 with
            | Some Pending => [NError e]
            | _ => []
            end).
  { rewrite E2. unfold reacting. cbn [runs set_pending]. rewrite R1.
    destruct r as [a ce p1 p2 pa]. simpl in Hp. subst p2.
    destruct (fst r1) as [op fi tm rd sp uc own bc bs hs tid rs pd].
    simpl in R1. subst rs.
    destruct pa; reflexivity. }
  pose proof (keeps_run (Rok o) _ (step_ok o) post (fst r2) Hpost Hok2)
    as (r' & H1 & _ & _ & H4).
  pose proof (keeps_run (Rlost e) _ (step_lost e) post (fst r2) Hpost Hrun) as Hl.
  assert (Hr : ready (fst (run (fst r2) post)) = false).
  { destruct (ready (fst (run (fst r2) post))); [|done]. specialize (H4 eq_refl).
    rewrite H1 in Hl. simpl in Hl. injection Hl as Hl.
    unfold all_resolved in H4. rewrite Hl in H4. simpl in H4.
    by rewrite andb_false_r in H4. }
  split; [done|]. split; [done|]. split; [|done].
  rewrite !in_app_iff. intros [Hin|[Hin|Hin]].
  - apply (run_flags (ZongJi_new h) (Start o :: pre)) in Hin. fold r1 in Hin.
    destruct Hin. congruence.
  - pose proof (step_flags (fst r1) (Reply i (QErr e))) as (_ & F2 & F3 & _).
    fold r2 in F2, F3. apply F3 in Hin. destruct Hin as [_ Hin].
    pose proof (run_flags (fst r2) post) as (_ & G2 & _).
    rewrite G2 in Hr by done. discriminate.
  - apply (run_flags (fst r2) post) in Hin. destruct Hin. congruence.
Qed.

Lemma failed_tail_resolution_fails_start_witness :
  let o := MkStartArg
             (MkOptions (VNum 7) (VStr "caller.000001") (VNum 4) (VBool true))
             no_filters in
  let e := MkError "Error" "ER_SPECIFIC_ACCESS_DENIED_ERROR" in
  let r1 := run (ZongJi_new true) [Start o] in
  let r2 := step (fst r1) (Reply 1 (QErr e)) in
  options (fst r2) = arg_options o /\ notifications (snd r2) = [NError e] /\
  ready (fst (run (fst r2) [Reply 0 (QRows [∅]); Reply 0 (QRows [])])) = false.
Proof.
  intros o e r1 r2.
  destruct (failed_tail_resolution_fails_start true o []
              [Reply 0 (QRows [∅]); Reply 0 (QRows [])] 1 0 e)
    as (H1 & H2 & _ & H4).
  - constructor.
  - repeat constructor.
  - reflexivity.
  - split; [exact H1|]. split; [exact H2 | exact H4].
Defined.

(** ** The text of the metadata query *)

Lemma append_inv_head (p a b : string) : (p ++ a)%string = (p ++ b)%string -> a = b.
Proof. induction p as [|c p IH]; simpl; [done|]. intros [= H]. by apply IH. Qed.

Lemma string_length_append (a b : string) :
  String.length (a ++ b) = String.length a + String.length b.
Proof. induction a as [|c a IH]; simpl; [done|]. by rewrite IH. Qed.

Lemma append_inv_tail (a b x : string) : (a ++ x)%string = (b ++ x)%string -> a = b.
Proof.
  revert b. induction a as [|c a IH]; intros [|d b] H; simpl in *.
  - done.
  - apply (f_equal String.length) in H.
    change (String.length x = S (String.length (b ++ x))) in H.
    rewrite string_length_append in H. lia.
  - apply (f_equal String.length) in H.
    change (S (String.length (a ++ x)) = String.length x) in H.
    rewrite string_length_append in H. lia.
  - injection H as -> H. f_equal. by apply IH.
Qed.

Lemma quote_free_split (a b x y : string) :
  quote_free a = true -> quote_free b = true ->
  (a ++ String "'" x)%string = (b ++ String "'" y)%string -> a = b /\ x = y.
Proof.
  revert b. induction a as [|c a IH]; intros [|d b] Ha Hb H; simpl in *.
  - by injection H as ->.
  - injection H as <- _. by rewrite Ascii.eqb_refl in Hb.
  - injection H as -> _. by rewrite Ascii.eqb_refl in Ha.
  - injection H as -> H. apply andb_true_iff in Ha as [_ Ha], Hb as [_ Hb].
    destruct (IH b Ha Hb H) as [-> ->]. done.
Qed.

(** X15: when the schema names contain no ['], the text of the metadata
    query determines the schema name and the table name it was built from:
    two lookups send the same statement only for the same pair of names. *)
Theorem tableInfo_sql_determines_names (ev1 ev2 : TableMapEvent) :
  quote_free (ev_schemaName ev1) = true ->
  quote_free (ev_schemaName ev2) = true ->
  tableInfo_sql ev1 = tableInfo_sql ev2 ->
  ev_schemaName ev1 = ev_schemaName ev2 /\ ev_tableName ev1 = ev_tableName ev2.
Proof.
  intros H1 H2 H. rewrite !tableInfo_sql_eq in H.
  apply append_inv_head in H.
  change tableInfo_middle with (String "'" " AND TABLE_NAME='") in H.
  apply quote_free_split in H as [Hs Ht]; [|done|done].
  split; [done|].
  apply (append_inv_head " AND TABLE_NAME='") in Ht. by apply append_inv_tail in Ht.
Qed.

Lemma tableInfo_sql_determines_names_witness :
  let ev1 := MkTableMapEvent 1 "db1" "it's" in
  let ev2 := MkTableMapEvent 2 "db1" "it's" in
  ev_schemaName ev1 = ev_schemaName ev2 /\ ev_tableName ev1 = ev_tableName ev2.
Proof.
  intros ev1 ev2.
  apply (tableInfo_sql_determines_names ev1 ev2); reflexivity.
Defined.

(** ** Filters *)

(** X16: the event filter is monotone: an event that is skipped stays
    skipped when names are added to [excludeEvents] or removed from
    [includeEvents] (an absent [includeEvents] counting as the list of all
    names). *)
Theorem skipEvent_monotone (inc inc' : option (list string)) (ex ex' : list string)
    (si ss si' ss' : option (gmap string SchemaRule)) (n : string) :
  (forall x, In x ex -> In x ex') ->
  (forall l', inc' = Some l' ->
     forall x, In x l' -> match inc with Some l => In x l | None => True end) ->
  (inc' = None -> inc = None) ->
  _skipEvent (MkFilters inc (Some ex) si ss) n = true ->
  _skipEvent (MkFilters inc' (Some ex') si' ss') n = true.
Proof.
  intros Hex Hinc Hnone. unfold _skipEvent. simpl.
  rewrite !orb_true_iff, !negb_true_iff, !includes_In.
  intros [H|H]; [left; by apply Hex|].
  destruct inc' as [l'|]; [|by rewrite Hnone in H].
  right. destruct (includes l' n) eqn:E; [|done].
  apply includes_In in E. specialize (Hinc l' eq_refl n E).
  destruct inc as [l|]; [|done]. apply includes_In in Hinc. congruence.
Qed.

Lemma skipEvent_monotone_witness :
  _skipEvent (MkFilters (Some ["WriteRows"]) (Some ["Rotate"; "Xid"]) None None)
    "UpdateRows" = true.
Proof.
  apply (skipEvent_monotone (Some ["WriteRows"; "DeleteRows"]) (Some ["WriteRows"])
           ["Rotate"] ["Rotate"; "Xid"] None None None None "UpdateRows").
  - simpl. tauto.
  - intros l' [= <-] x. simpl. tauto.
  - discriminate.
  - reflexivity.
Defined.

(** X17: for a schema whose name [Object.prototype] does not define,
    rules that match nothing (an empty array, or a value that is neither
    [true], an array nor a function) act differently on the two sides: under
    [includeSchema] such a rule skips every table of its schema, as a missing
    rule does; under [excludeSchema], with no [includeSchema], it skips
    none. *)
Theorem degenerate_schema_rules (f : Filters) (db table : string) (r : SchemaRule) :
  proto_member db = None ->
  r = ROther \/ r = RList [] ->
  (forall inc, includeSchema f = Some inc ->
     inc !! db = Some r \/ inc !! db = None ->
     _skipSchema f db table = OVal (VBool true)) /\
  (forall ex, includeSchema f = None -> excludeSchema f = Some ex ->
     ex !! db = Some r \/ ex !! db = None ->
     _skipSchema f db table = OVal (VBool false)).
Proof.
  intros Hdb Hr. rewrite (skipSchema_own f db table Hdb).
  assert (Hm : rule_matches r table = false) by (by destruct Hr as [->| ->]).
  unfold own_rule_matches. split.
  - intros inc -> [H|H]; rewrite H, ?Hm; by rewrite orb_true_r.
  - intros ex -> -> [H|H]; rewrite H, ?Hm; done.
Qed.

Lemma degenerate_schema_rules_witness :
  _skipSchema (MkFilters None None (Some {[ "db1" := RList [] ]}) None) "db1" "t1" =
    OVal (VBool true) /\
  _skipSchema (MkFilters None None None (Some {[ "db1" := RList [] ]})) "db1" "t1" =
    OVal (VBool false).
Proof.
  split.
  - apply (proj1 (degenerate_schema_rules
                    (MkFilters None None (Some {[ "db1" := RList [] ]}) None)
                    "db1" "t1" (RList []) eq_refl (or_intror eq_refl))
             {[ "db1" := RList [] ]} eq_refl).
    left. reflexivity.
  - apply (proj2 (degenerate_schema_rules
                    (MkFilters None None None (Some {[ "db1" := RList [] ]}))
                    "db1" "t1" (RList []) eq_refl (or_intror eq_refl))
             {[ "db1" := RList [] ]} eq_refl eq_refl).
    left. reflexivity.
Defined.

Lemma step_filters_frame (st : State) (i : input) :
  is_start i = false -> Rframe filters st (fst (step st i)) (snd (step st i)).
Proof.
  intros Hi. destruct i; cbn [step]; try discriminate;
    try (as_keeps; unfold stop; keeps_tac; fail).
  - as_keeps. apply keeps_reply; [apply _|]. intros s k Hk.
    apply keeps_after_delete; [apply _ | done |]. destruct k; keeps_tac.
  - destruct (binlogStream st); [|apply comp_refl]. as_keeps. keeps_tac.
Qed.

(** X18: the filters are fixed between two calls of [start]: no answer,
    error, [stop], [pause] or [resume] changes them, and neither does the
    tail-position resolution that rewrites the options; so [_skipEvent] and
    [_skipSchema] keep giving the same verdicts. *)
Theorem filters_fixed_between_starts (st : State) (ins : list input)
    (n db table : string) :
  Forall (fun x => is_start x = false) ins ->
  let st' := fst (run st ins) in
  filters st' = filters st /\
  _skipEvent (filters st') n = _skipEvent (filters st) n /\
  _skipSchema (filters st') db table = _skipSchema (filters st) db table.
Proof.
  intros H st'.
  assert (E : filters st' = filters st)
    by apply (keeps_run (Rframe filters) _ step_filters_frame ins st H).
  by rewrite E.
Qed.

Lemma filters_fixed_between_starts_witness :
  let o := MkStartArg (MkOptions VUndefined VUndefined VUndefined (VBool true))
             (MkFilters (Some ["WriteRows"]) None None None) in
  let lg : row := <["Log_name" := VStr "log.000005"]> {[ "File_size" := VNum 1540 ]} in
  let st := fst (step (ZongJi_new true) (Start o)) in
  filters (fst (run st [Reply 1 (QRows [lg]); Stop])) = filters st.
Proof.
  intros o lg st.
  apply (filters_fixed_between_starts st [Reply 1 (QRows [lg]); Stop] "" "" "").
  repeat constructor.
Defined.

(** ** One ['ready'] per call of [start] *)

#[local] Instance Rsettle_comp (rid : nat) : Compositional (Rsettle rid).
Proof.
  split.
  - intros s. unfold Rsettle. simpl. split; [done|].
    destruct (run_pending rid s); simpl; lia.
  - intros s1 s2 s3 o1 o2 [A1 A2] [B1 B2]. unfold Rsettle.
    rewrite count_act_app. split; [lia|].
    destruct (run_pending rid s1), (run_pending rid s2), (run_pending rid s3);
      simpl in *; lia.
Qed.

#[local] Instance Rone_comp : Compositional Rone.
Proof.
  split.
  - intros s. unfold Rone. simpl. lia.
  - intros s1 s2 s3 o1 o2 A B. unfold Rone in *. rewrite count_act_app. lia.
Qed.

Lemma Rsettle_modify (rid : nat) (f : State -> State) :
  (forall st, runs (f st) = runs st) -> keeps (Rsettle rid) (modify f).
Proof.
  intros Hf st. unfold Rsettle, run_pending. simpl. rewrite Hf.
  split; [done|]. destruct (runs st !! rid) as [r|]; [|simpl; lia].
  destruct (is_pending (pAll r)); simpl; lia.
Qed.

Lemma Rsettle_perform (rid : nat) (x : action) :
  is_ready_note x = false -> keeps (Rsettle rid) (perform x).
Proof.
  intros Hx st. unfold Rsettle. simpl. rewrite Hx. split; [done|].
  destruct (run_pending rid st); simpl; lia.
Qed.

Lemma undecided_app (l1 l2 : list Run) :
  undecided (l1 ++ l2) = undecided l1 + undecided l2.
Proof. induction l1 as [|r l1 IH]; simpl; [done|]. rewrite IH. lia. Qed.

Lemma undecided_alter (f : Run -> Run) (i : nat) (l : list Run) (r : Run) :
  l !! i = Some r ->
  undecided (alter f i l) + (if is_pending (pAll r) then 1 else 0) =
  undecided l + (if is_pending (pAll (f r)) then 1 else 0).
Proof.
  revert i. induction l as [|x l IH]; intros [|i] H; try done.
  - injection H as ->. simpl. lia.
  - simpl in H. specialize (IH i H).
    change (alter f (S i) (x :: l)) with (x :: alter f i l). simpl. lia.
Qed.

Lemma alter_absent {A} (f : A -> A) (i : nat) (l : list A) :
  l !! i = None -> alter f i l = l.
Proof.
  revert i. induction l as [|x l IH]; intros [|i] H; try done.
  simpl in H. change (alter f (S i) (x :: l)) with (x :: alter f i l).
  by rewrite IH.
Qed.

(** A settled promise stays settled. *)
Lemma Rsettle_upd_run (rid rid' : nat) (f : Run -> Run) :
  (forall r, is_pending (pAll (f r)) = true -> is_pending (pAll r) = true) ->
  keeps (Rsettle rid) (upd_run rid' f).
Proof.
  intros Hf st. unfold Rsettle, run_pending, upd_run, modify.
  cbn [fst snd runs set_runs count_act]. split; [done|].
  destruct (runs st !! rid') as [r'|] eqn:E'.
  - pose proof (undecided_alter f rid' (runs st) r' E') as Hu.
    specialize (Hf r').
    destruct (decide (rid = rid')) as [->|Hne].
    + rewrite list_lookup_alter_eq, E'. cbn [fmap option_fmap option_map].
      destruct (is_pending (pAll r')), (is_pending (pAll (f r'))); simpl;
        try lia; by specialize (Hf eq_refl).
    + rewrite list_lookup_alter_ne by done.
      assert (undecided (alter f rid' (runs st)) <= undecided (runs st)).
      { destruct (is_pending (pAll r')), (is_pending (pAll (f r'))); try lia;
          by specialize (Hf eq_refl). }
      destruct (runs st !! rid) as [r|]; [|simpl; lia].
      destruct (is_pending (pAll r)); simpl; lia.
  - rewrite alter_absent by done.
    destruct (runs st !! rid) as [r|]; [|simpl; lia].
    destruct (is_pending (pAll r)); simpl; lia.
Qed.

Lemma settled_resolve_in (w : which) (r : Run) :
  is_pending (pAll (resolve_in w r)) = true -> is_pending (pAll r) = true.
Proof.
  unfold resolve_in.
  destruct w, r as [a c pc [pb|] pa]; simpl;
    repeat match goal with
           | |- context [match ?x with _ => _ end] => destruct x; simpl
           end; done.
Qed.

Lemma settled_reject_in (w : which) (e : JsError) (r : Run) :
  is_pending (pAll (reject_in w e r)) = true -> is_pending (pAll r) = true.
Proof.
  unfold reject_in.
  destruct w, r as [a c pc [pb|] pa]; simpl;
    repeat match goal with
           | |- context [match ?x with _ => _ end] => destruct x; simpl
           end; done.
Qed.

#[local] Hint Extern 1 (keeps (Rsettle _) (modify _)) =>
  apply Rsettle_modify; intros []; reflexivity : keeps.
#[local] Hint Extern 1 (keeps (Rsettle _) (perform _)) =>
  apply Rsettle_perform; reflexivity : keeps.
#[local] Hint Extern 1 (keeps (Rsettle _) (query _ _ _)) =>
  unfold query; apply keeps_andThen;
    [apply _ | apply Rsettle_perform; reflexivity
    | apply Rsettle_modify; intros []; reflexivity] : keeps.
#[local] Hint Extern 1 (keeps (Rsettle _) (upd_run _ (resolve_in _))) =>
  apply Rsettle_upd_run; apply settled_resolve_in : keeps.
#[local] Hint Extern 1 (keeps (Rsettle _) (upd_run _ (reject_in _ _))) =>
  apply Rsettle_upd_run; apply settled_reject_in : keeps.
#[local] Hint Extern 1 (keeps (Rsettle _) (upd_run _ _)) =>
  apply Rsettle_upd_run; intros []; done : keeps.

(** The reaction of [Promise.all] emits ['ready'] at most once, and not at
    all while the promise is pending; it leaves the promises alone. *)
Lemma react_bound (rid : nat) (st : State) :
  runs (fst (react rid st)) = runs st /\
  count_act is_ready_note (snd (react rid st)) <= 1 /\
  (run_pending rid st = true -> count_act is_ready_note (snd (react rid st)) = 0).
Proof.
  unfold react, with_run, run_pending.
  destruct (runs st !! rid) as [r|]; [|simpl; auto].
  destruct (pAll r); simpl; [auto | | split; [done|split; [lia|done]]].
  destruct st as [op fi tm rd sp uc own bc bs hs tid rs pd].
  destruct sp, hs; simpl; repeat split; (lia || done).
Qed.

Lemma settle_then_react (rid : nat) (body : act) (st : State) :
  keeps (Rsettle rid) body -> run_pending rid st = true ->
  Rone st (fst ((body >>> react rid) st)) (snd ((body >>> react rid) st)).
Proof.
  intros Hb Hp. unfold andThen. destruct (Hb st) as [H1 H2].
  destruct (body st) as [s1 o1]. simpl in H1, H2.
  destruct (react_bound rid s1) as (Hr & Hle & Hz).
  destruct (react rid s1) as [s2 o2]. simpl in *.
  unfold Rone. rewrite count_act_app, Hr, H1, Hp in *.
  destruct (run_pending rid s1); simpl in *; [rewrite Hz by done|]; lia.
Qed.

Lemma Rsettle_Rone (rid : nat) (a : act) : keeps (Rsettle rid) a -> keeps Rone a.
Proof.
  intros Ha st. destruct (Ha st) as [H1 H2]. unfold Rone. rewrite H1.
  destruct (run_pending rid st && negb _); lia.
Qed.

Lemma Rone_reacting (rid : nat) (body : act) :
  keeps (Rsettle rid) body -> keeps Rone (reacting rid body).
Proof.
  intros Hb st. unfold reacting.
  destruct (pAll <$> runs st !! rid) as [p|] eqn:E;
    [destruct p|]; try apply (Rsettle_Rone rid body Hb).
  apply settle_then_react; [done|]. unfold run_pending.
  destruct (runs st !! rid) as [r|]; [|done]. simpl in E. by injection E as ->.
Qed.

Lemma start_bound (o : StartArg) (st : State) :
  count_act is_ready_note (snd (start o st)) + undecided (runs (fst (start o st)))
  <= undecided (runs st) + 1.
Proof.
  set (wantEnd := truthy (startAtEnd (arg_options o))).
  set (rid := length (runs st)).
  set (s0 := set_runs
               (runs st ++
                [MkRun o true Pending (if wantEnd then Some Pending else None) Pending])
               (set_filters (arg_filters o) (set_options (arg_options o) st))).
  set (body := testChecksum rid >>> (if wantEnd then findBinlogEnd rid else skip)).
  assert (E : start o st = (body >>> react rid) s0).
  { unfold start, body, andThen, read, modify, _options, _filters. simpl.
    fold wantEnd rid s0.
    destruct (testChecksum rid s0) as [s1 o1].
    destruct ((if wantEnd then findBinlogEnd rid else skip) s1) as [s2 o2].
    destruct (react rid s2) as [s3 o3]. done. }
  rewrite E.
  assert (Hb : keeps (Rsettle rid) body).
  { unfold body. destruct wantEnd; keeps_tac. }
  assert (Hp : run_pending rid s0 = true).
  { unfold run_pending, s0, rid. destruct st. simpl. by rewrite lookup_snoc_last. }
  pose proof (settle_then_react rid body s0 Hb Hp) as H. unfold Rone in H.
  assert (undecided (runs s0) = undecided (runs st) + 1).
  { unfold s0. destruct st. simpl. rewrite undecided_app. simpl. lia. }
  lia.
Qed.

Lemma step_one_quiet (st : State) (i : input) :
  is_start i = false -> Rone st (fst (step st i)) (snd (step st i)).
Proof.
  intros Hi. destruct i; cbn [step]; try discriminate;
    try (as_keeps; apply (Rsettle_Rone 0); unfold stop; keeps_tac; fail).
  - as_keeps. apply keeps_reply; [apply _|]. intros s k Hk.
    apply keeps_after_delete; [apply _ | unfold Rone; simpl; lia |].
    destruct k; cbn [run_cont];
      try (apply Rone_reacting; keeps_tac; fail);
      apply (Rsettle_Rone 0); keeps_tac.
  - destruct (binlogStream st); [|apply comp_refl]. as_keeps.
    apply (Rsettle_Rone 0). keeps_tac.
Qed.

Lemma run_one (ins : list input) (st : State) :
  count_act is_ready_note (snd (run st ins)) + undecided (runs (fst (run st ins)))
  <= undecided (runs st) + count_starts ins.
Proof.
  revert st. induction ins as [|i ins IH]; intros st; cbn [run count_starts].
  - simpl. lia.
  - assert (H : count_act is_ready_note (snd (step st i)) +
                undecided (runs (fst (step st i)))
                <= undecided (runs st) + (if is_start i then 1 else 0)).
    { destruct (is_start i) eqn:E.
      - destruct i; try discriminate. apply start_bound.
      - pose proof (step_one_quiet st i E) as H. unfold Rone in H. lia. }
    destruct (step st i) as [s1 o1]. specialize (IH s1).
    destruct (run s1 ins) as [s2 o2]. simpl in *. rewrite count_act_app. lia.
Qed.

(** X19: ['ready'] is emitted at most once per call of [start]: in every
    run of a new session, the number of ['ready'] notifications plus the
    number of calls of [start] still undecided is at most the number of calls
    of [start]. *)
Theorem ready_at_most_once_per_start (h : bool) (ins : list input) :
  let r := run (ZongJi_new h) ins in
  count_act is_ready_note (snd r) + undecided (runs (fst r)) <= count_starts ins.
Proof. intros r. apply (run_one ins (ZongJi_new h)). Qed.

(** ** The thread that [stop] kills *)

Lemma step_threadId_frame (st : State) (i : input) :
  is_connected i = false -> Rframe threadId st (fst (step st i)) (snd (step st i)).
Proof.
  intros Hi. destruct i; cbn [step]; try discriminate;
    try (as_keeps; unfold stop; keeps_tac; fail).
  - as_keeps. apply keeps_reply; [apply _|]. intros s k Hk.
    apply keeps_after_delete; [apply _ | done |]. destruct k; keeps_tac.
  - destruct (binlogStream st); [|apply comp_refl]. as_keeps. keeps_tac.
Qed.

Lemma kill_sql_inj (a b : N) : kill_sql (Some a) = kill_sql (Some b) -> a = b.
Proof.
  unfold kill_sql. intros H. apply (append_inv_head "KILL ") in H.
  by apply (inj pretty) in H.
Qed.

(** X20: [stop] on a live session reads the thread id of the stream
    connection at the time of the call: after a handshake that gave thread
    [tid] and any calls and answers that are neither a [stop] nor another
    handshake, [stop] destroys the stream connection and sends
    [KILL tid] on the control connection, and nothing else; the statement
    names no other thread. *)
Theorem stop_kills_stream_thread (st : State) (tid : N) (ins : list input) :
  stopped st = false ->
  Forall (fun i => is_stop i = false /\ is_connected i = false) ins ->
  let st' := fst (run (fst (step st (Connected tid))) ins) in
  snd (step st' Stop) = [Destroy Stream; Query Ctrl ("KILL " ++ pretty tid)%string] /\
  (forall tid', kill_sql (Some tid') = ("KILL " ++ pretty tid)%string -> tid' = tid).
Proof.
  intros Hs Hins st'. split; [|intros tid' H; by apply kill_sql_inj].
  set (s0 := fst (step st (Connected tid))).
  assert (Ht : threadId st' = Some tid).
  { apply (keeps_run (Rframe threadId) _ step_threadId_frame ins s0).
    eapply Forall_impl; [exact Hins|]. by intros i [_ H]. }
  assert (Hl : stopped st' = false).
  { transitivity (stopped s0); [|by destruct st].
    apply (keeps_run (Rframe stopped) _ step_stopped_frame ins s0).
    eapply Forall_impl; [exact Hins|]. by intros i [H _]. }
  rewrite (stop_when_live st' Hl), Ht. done.
Qed.

Lemma stop_kills_stream_thread_witness :
  let st := fst (run (fst (step (ZongJi_new true) (Connected 42)))
                   [Start empty_arg; PauseCall]) in
  snd (step st Stop) = [Destroy Stream; Query Ctrl "KILL 42"].
Proof.
  intros st.
  apply (stop_kills_stream_thread (ZongJi_new true) 42 [Start empty_arg; PauseCall]).
  - reflexivity.
  - repeat constructor.
Defined.
